(** * explode-env: shell-style placeholder expansion

    A shallow embedding of the two [explode] functions of the repository
    (the one with options in [src/index.ts], the older one without options)
    and of the helpers they share ([getTemplateKey], [isAlphaNumeric],
    [isShellSpecialVar]).

    Modelling choices, all taken from the source:
    - a JavaScript string is the list of its UTF-16 code units ([N]);
      [str[k]] is list lookup ([None] is [undefined]), [str.slice(a, b)]
      with non-negative bounds is [take (b - a) (drop a str)];
    - a value of type [string | undefined] is an [option jsstring];
    - an object of type [Record<string, string | undefined>] is a plain
      object: the finite map of its own properties, with the members of
      [Object.prototype] behind it, which [in] and property reads also see;
    - objects live in a store and are passed by reference, so that the
      copy [{ ...mapping }] and the assignment [m[realKey] = defaultValue]
      are an allocation and a store update;
    - the [for] loop, whose counter is advanced inside its body, runs on
      fuel and yields [None] when the fuel runs out. *)

From Stdlib Require Import NArith Ascii String.
From stdpp Require Import base option list gmap.

Local Open Scope N_scope.
Local Open Scope nat_scope.

(** ** JavaScript strings and values *)

Abbreviation jsstring := (list N).
Abbreviation jsvalue := (option jsstring).
Abbreviation jsobject := (gmap jsstring jsvalue).

(** The code unit of an ASCII character, and the string of a literal. *)
Definition chr (a : ascii) : N := N_of_ascii a.

Definition lit (s : string) : jsstring := map N_of_ascii (list_ascii_of_string s).

(** [str[k] === "c"] for a one-character literal. *)
Definition char_is (o : option N) (a : ascii) : bool :=
  match o with
  | Some c => N.eqb c (chr a)
  | None => false
  end.

(** [str.slice(a, b)], and the test that a string is the empty string. *)
Definition slice (a b : nat) (s : jsstring) : jsstring := take (b - a) (drop a s).

Definition is_empty (s : jsstring) : bool :=
  match s with
  | [] => true
  | _ :: _ => false
  end.

(** [str.indexOf(c)] for a one-character [c]; [None] stands for [-1]. *)
Fixpoint indexOf (c : N) (s : jsstring) : option nat :=
  match s with
  | [] => None
  | x :: s' => if N.eqb x c then Some 0 else S <$> indexOf c s'
  end.

Fixpoint starts_with (p s : jsstring) : bool :=
  match p, s with
  | [], _ => true
  | _ :: _, [] => false
  | a :: p', b :: s' => N.eqb a b && starts_with p' s'
  end.

(** [s.includes(p)]. *)
Fixpoint includes (p s : jsstring) : bool :=
  match s with
  | [] => starts_with p []
  | _ :: s' => starts_with p s || includes p s'
  end.

(** [key.split(/:=|:-/)]: the pieces between all the matches of the
    pattern, scanning from the left; [cur] is the piece being read. *)
Definition is_operator (c d : N) : bool :=
  N.eqb c (chr ":") && (N.eqb d (chr "=") || N.eqb d (chr "-")).

Fixpoint split_from (cur s : jsstring) : list jsstring :=
  match s with
  | [] => [cur]
  | c :: s' =>
      match s' with
      | d :: s'' =>
          if is_operator c d then cur :: split_from [] s''
          else split_from (cur ++ [c]) s'
      | [] => [cur ++ [c]]
      end
  end.

Definition split (key : jsstring) : list jsstring := split_from [] key.

(** Conversions the operators of the source apply to a possibly undefined
    value: to a string ([buffer += v]), to a property key ([v in m]), to a
    boolean ([v && ...], [v?.length && ...], [!flag]). *)
Definition to_string (v : jsvalue) : jsstring := default (lit "undefined") v.

Definition to_key (v : jsvalue) : jsstring := default (lit "undefined") v.

Definition truthy (v : jsvalue) : bool :=
  match v with
  | Some (_ :: _) => true
  | _ => false
  end.

Definition opt_length (v : jsvalue) : option nat := length <$> v.

Definition truthy_num (n : option nat) : bool :=
  match n with
  | Some (S _) => true
  | _ => false
  end.

Definition truthy_flag (b : option bool) : bool := default false b.

(** What a plain object inherits from [Object.prototype]: the twelve
    members below, each with the text that [+=] makes of it (the code has no
    other use for a member; the text is the one Node prints). The getter
    [__proto__] gives the prototype itself. *)
Definition native (name : string) : jsstring :=
  lit "function " ++ lit name ++ lit "() { [native code] }".

Definition Object_prototype : gmap jsstring jsstring :=
  list_to_map
    [ (lit "constructor", native "Object");
      (lit "__defineGetter__", native "__defineGetter__");
      (lit "__defineSetter__", native "__defineSetter__");
      (lit "hasOwnProperty", native "hasOwnProperty");
      (lit "__lookupGetter__", native "__lookupGetter__");
      (lit "__lookupSetter__", native "__lookupSetter__");
      (lit "isPrototypeOf", native "isPrototypeOf");
      (lit "propertyIsEnumerable", native "propertyIsEnumerable");
      (lit "toString", native "toString");
      (lit "valueOf", native "valueOf");
      (lit "__proto__", lit "[object Object]");
      (lit "toLocaleString", native "toLocaleString") ].

(** Objects: [k in o] and [o[k]], on the object's own properties first and
    on [Object.prototype] next. An inherited member is read as its text. *)
Definition has (o : jsobject) (k : jsstring) : bool :=
  match o !! k with
  | Some _ => true
  | None =>
      match Object_prototype !! k with
      | Some _ => true
      | None => false
      end
  end.

Definition get (o : jsobject) (k : jsstring) : jsvalue :=
  match o !! k with
  | Some v => v
  | None => Object_prototype !! k
  end.

(** ** The helpers shared by both files *)

Definition isAlphaNumeric (c : N) : bool :=
  N.eqb c (chr "_")
  || (N.leb (chr "a") c && N.leb c (chr "z"))
  || (N.leb (chr "A") c && N.leb c (chr "Z"))
  || (N.leb (chr "0") c && N.leb c (chr "9")).

Definition isShellSpecialVar (char : option N) : bool :=
  match char with
  | Some c =>
      existsb (N.eqb c)
        (map chr ["*"; "#"; "$"; "@"; "!"; "?"; "-";
                  "0"; "1"; "2"; "3"; "4"; "5"; "6"; "7"; "8"; "9"]%char)
  | None => false
  end.

(** [while (i < str.length && isAlphaNumeric(str[i])) i++], read on the
    part of [str] from [i] on. *)
Fixpoint word_end (rest : jsstring) (i : nat) : nat :=
  match rest with
  | c :: rest' => if isAlphaNumeric c then word_end rest' (S i) else i
  | [] => i
  end.

(** The result [{ key, length }] of [getTemplateKey]. *)
Record TemplateKey := { key : jsstring; length_ : nat }.

Definition getTemplateKey (str : jsstring) : TemplateKey :=
  if char_is (str !! 0) "{" then
    let end_ := indexOf (chr "}") str in
    match end_ with
    | Some 1 => {| key := []; length_ := 2 |}
    | None => let key := drop 0 str in {| key := []; length_ := length key |}
    | Some e => {| key := slice 1 e str; length_ := e + 1 |}
    end
  else if isShellSpecialVar (str !! 0) then {| key := []; length_ := 0 |}
  else
    let i := word_end str 0 in
    {| key := slice 0 i str; length_ := i |}.

(** ** The store and the [for] loop

    A store is the list of the objects allocated so far and a reference is
    a position in it; a new object goes at the end. A state of the loop is
    the store with the locals [buffer], [i] and [j]. *)

Abbreviation ref := nat.
Abbreviation store := (list jsobject).

Record State := { heap : store; buffer : jsstring; i : nat; j : nat }.

Definition next (st : State) : State :=
  {| heap := heap st; buffer := buffer st; i := i st; j := S (j st) |}.

(** [for (...; j < len; j++) body]. *)
Fixpoint for_loop (len : nat) (body : State → option State) (fuel : nat)
    (st : State) : option State :=
  match fuel with
  | 0 => None
  | S fuel =>
      if j st <? len then
        st' ← body st; for_loop len body fuel (next st')
      else Some st
  end.

(** ** [src/index.ts] *)

Module Index.

Record Options := {
  ignoreUnsetVars : option bool;
  ignoreDefaultExpansion : option bool
}.

Definition DEFAULT_OPTIONS : Options :=
  {| ignoreUnsetVars := Some false; ignoreDefaultExpansion := Some false |}.

(** One turn of the loop of [explode] (lines 63 to 93), without the [j++]
    of the loop header; [m] is the reference of the copy. The two tests
    [realKey in m] read the copy before the assignment of line 88. *)
Definition body (str : jsstring) (options : Options) (m : ref)
    (st : State) : option State :=
  if char_is (str !! (j st)) "$" then
    let buffer := buffer st ++ slice (i st) (j st) str in
    let tk := getTemplateKey (drop (j st + 1) str) in
    let key := key tk in
    let length := length_ tk in
    '(heap, buffer) ←
      (if is_empty key then
         Some (heap st, buffer ++ slice (j st) (j st + length + 1) str)
       else
         let parts := split key in
         let realKey := parts !! 0 in
         let defaultValue := parts !! 1 in
         om ← heap st !! m;
         let buffer :=
           if has om (to_key realKey) then
             buffer ++ to_string (get om (to_key realKey))
           else if truthy defaultValue
                   && negb (truthy_flag (ignoreDefaultExpansion options)) then
             buffer ++ to_string defaultValue
           else if truthy_flag (ignoreUnsetVars options) then
             buffer ++ slice (j st) (j st + length + 1) str
           else buffer in
         if negb (truthy_flag (ignoreDefaultExpansion options))
            && negb (has om (to_key realKey))
            && truthy_num (opt_length defaultValue)
            && includes (lit ":=") key then
           Some (<[m := <[to_key realKey := defaultValue]> om]> (heap st), buffer)
         else Some (heap st, buffer));
    let j := j st + length in
    Some {| heap := heap; buffer := buffer; i := j + 1; j := j |}
  else Some st.

(** [explode(str, mapping, options)] in the store [h]: the copy
    [{ ...mapping }] is allocated at the first free reference; the result is
    the returned string and the store the call leaves. *)
Definition explode (str : jsstring) (mapping : ref) (options : Options)
    (h : store) : option (jsstring * store) :=
  src ← h !! mapping;
  let m := length h in
  st ← for_loop (length str) (body str options m) (S (length str))
         {| heap := h ++ [src]; buffer := []; i := 0; j := 0 |};
  Some (buffer st ++ drop (i st) str, heap st).

(** [explodeEnv(str, options)] (lines 119 to 124): [explode] on the global
    object [process.env], whose reference is [process_env]. *)
Definition explodeEnv (process_env : ref) (str : jsstring) (options : Options)
    (h : store) : option (jsstring * store) :=
  explode str process_env options h.

End Index.

(** ** The file without options *)

Module Simple.

(** One turn of the loop of [explode] (lines 27 to 38); line 34 is
    [buffer += mapping[key] ?? ...], with the empty string as fallback. *)
Definition body (str : jsstring) (mapping : ref) (st : State) : option State :=
  if char_is (str !! (j st)) "$" then
    let buffer := buffer st ++ slice (i st) (j st) str in
    let tk := getTemplateKey (drop (j st + 1) str) in
    let key := key tk in
    let length := length_ tk in
    buffer ←
      (if is_empty key then
         Some (buffer ++ slice (j st) (j st + length + 1) str)
       else
         om ← heap st !! mapping;
         Some (buffer ++ default [] (get om key)));
    let j := j st + length in
    Some {| heap := heap st; buffer := buffer; i := j + 1; j := j |}
  else Some st.

(** [explode(str, mapping)] in the store [h], which it only reads. *)
Definition explode (str : jsstring) (mapping : ref) (h : store) : option jsstring :=
  st ← for_loop (length str) (body str mapping) (S (length str))
         {| heap := h; buffer := []; i := 0; j := 0 |};
  Some (buffer st ++ drop (i st) str).

(** [explodeEnv(str)] (lines 63 to 65). *)
Definition explodeEnv (process_env : ref) (str : jsstring) (h : store) : option jsstring :=
  explode str process_env h.

End Simple.

(** ** Running the code on literals *)

Definition prop (k v : string) : jsstring * jsvalue := (lit k, Some (lit v)).

Definition prop_undefined (k : string) : jsstring * jsvalue := (lit k, None).

Definition obj (l : list (jsstring * jsvalue)) : jsobject := list_to_map l.

Definition OPTS (u d : bool) : Index.Options :=
  {| Index.ignoreUnsetVars := Some u; Index.ignoreDefaultExpansion := Some d |}.

Global Arguments chr : simpl never.
Global Arguments lit : simpl never.

(** What one placeholder with a non-empty key appends to the buffer and
    leaves in the copy, as a function of the copy [om] before it: the
    content of the [else] branch of [Index.body], used to state its effect. *)
Definition resolve (options : Index.Options) (om : jsobject)
    (key literal : jsstring) : jsstring * jsobject :=
  let realKey := to_key (split key !! 0) in
  let defaultValue := split key !! 1 in
  let dflt := negb (truthy_flag (Index.ignoreDefaultExpansion options)) in
  (if has om realKey then to_string (get om realKey)
   else if truthy defaultValue && dflt then to_string defaultValue
   else if truthy_flag (Index.ignoreUnsetVars options) then literal
   else [],
   if dflt && negb (has om realKey) && truthy_num (opt_length defaultValue)
      && includes (lit ":=") key
   then <[realKey := defaultValue]> om else om).

(** Two states of two runs: the first reads a template that has [k] more
    characters in front and has [b] more in its buffer, the copies are the
    same object [om], stored after [h1] in one store and after [h2] in the
    other. *)
Definition related (k : nat) (b : jsstring) (h1 h2 : store) (s1 s2 : State) : Prop :=
  ∃ om, heap s1 = h1 ++ [om] ∧ heap s2 = h2 ++ [om] ∧
        buffer s1 = b ++ buffer s2 ∧ i s1 = k + i s2 ∧ j s1 = k + j s2.

(** A state with [b] put in front of its buffer and its cursors moved
    forward by [k]. *)
Definition shift (k : nat) (b : jsstring) (st : State) : State :=
  {| heap := heap st; buffer := b ++ buffer st; i := k + i st; j := k + j st |}.

(** The state with [j] moved forward by [k]. *)
Definition jump (k : nat) (st : State) : State :=
  {| heap := heap st; buffer := buffer st; i := i st; j := j st + k |}.

(** * Properties *)

(** ** Strings *)

Lemma slice_app_add (p t : jsstring) (a b : nat) :
  slice (length p + a) (length p + b) (p ++ t) = slice a b t.
Proof.
  unfold slice. rewrite drop_app_add.
  f_equal. lia.
Qed.

Lemma lookup_app_add (p t : jsstring) (a : nat) :
  (p ++ t) !! (length p + a) = t !! a.
Proof. rewrite lookup_app_r by lia. f_equal. lia. Qed.

Lemma slice_0_app (p t : jsstring) : slice 0 (length p) (p ++ t) = p.
Proof. unfold slice. rewrite drop_0, Nat.sub_0_r. apply take_app_length. Qed.

(** ** The [for] loop *)

Section for_loop_facts.
Context (len : nat) (body : State → option State).

Lemma for_loop_S (fuel : nat) (st : State) :
  for_loop len body (S fuel) st =
  if j st <? len then st' ← body st; for_loop len body fuel (next st')
  else Some st.
Proof. done. Qed.

Lemma for_loop_mono (fuel fuel' : nat) (st r : State) :
  for_loop len body fuel st = Some r → fuel ≤ fuel' →
  for_loop len body fuel' st = Some r.
Proof.
  revert fuel' st. induction fuel as [|fuel IH]; intros fuel' st; simpl; [done|].
  intros Hr Hle. destruct fuel' as [|fuel']; [lia|]. simpl.
  destruct (j st <? len); [|done].
  destruct (body st) as [st'|]; simpl in *; [|done].
  apply IH; [done|lia].
Qed.

(** An invariant that makes every turn succeed and never moves [j]
    backwards makes the loop end before the fuel does. *)
Lemma for_loop_total (P : State → Prop) :
  (∀ st, P st → j st < len →
     ∃ st', body st = Some st' ∧ P (next st') ∧ j st ≤ j st') →
  ∀ fuel st, P st → len - j st < fuel →
    ∃ r, for_loop len body fuel st = Some r ∧ P r.
Proof.
  intros Hbody. induction fuel as [|fuel IH]; intros st HP Hfuel; [lia|].
  simpl. destruct (Nat.ltb_spec (j st) len) as [Hlt|Hge]; [|by eauto].
  destruct (Hbody st HP Hlt) as (st' & -> & HP' & Hj). simpl.
  apply IH; [done|]. simpl. lia.
Qed.

(** Turns that leave the state alone only move [j]. *)
Lemma for_loop_skip (k fuel : nat) (st : State) :
  (∀ q, q < k → body (jump q st) = Some (jump q st)) →
  j st + k ≤ len →
  for_loop len body (k + fuel) st = for_loop len body fuel (jump k st).
Proof.
  revert st. induction k as [|k IH]; intros st Hskip Hlen.
  - destruct st. unfold jump. simpl. by rewrite Nat.add_0_r.
  - simpl. destruct (Nat.ltb_spec (j st) len) as [_|?]; [|lia].
    assert (body st = Some st) as ->.
    { specialize (Hskip 0 ltac:(lia)). destruct st. unfold jump in Hskip.
      simpl in Hskip. by rewrite Nat.add_0_r in Hskip. }
    simpl. rewrite IH.
    + f_equal. unfold jump, next. simpl. f_equal. lia.
    + intros q Hq. specialize (Hskip (S q) ltac:(lia)).
      unfold jump, next in *. simpl.
      by replace (S (j st + q)) with (j st + S q) by lia.
    + simpl. lia.
Qed.

End for_loop_facts.

(** Two loops whose turns keep a relation between their states end in
    related states, on the same fuel. *)
Lemma for_loop_sim (R : State → State → Prop) (len1 len2 : nat)
    (body1 body2 : State → option State) :
  (∀ s1 s2, R s1 s2 → (j s1 <? len1) = (j s2 <? len2)) →
  (∀ s1 s2, R s1 s2 →
     option_Forall2 (λ a b, R (next a) (next b)) (body1 s1) (body2 s2)) →
  ∀ fuel s1 s2, R s1 s2 →
    option_Forall2 R (for_loop len1 body1 fuel s1) (for_loop len2 body2 fuel s2).
Proof.
  intros Hcond Hbody. induction fuel as [|fuel IH]; intros s1 s2 HR; simpl.
  - constructor.
  - rewrite (Hcond _ _ HR). destruct (j s2 <? len2); [|by constructor].
    destruct (Hbody _ _ HR) as [a b Hab|]; simpl; [|constructor].
    by apply IH.
Qed.

(** ** The store *)

Lemma lookup_snoc (h : store) (om : jsobject) : (h ++ [om]) !! length h = Some om.
Proof. by apply list_lookup_middle. Qed.

Lemma insert_snoc (h : store) (om om' : jsobject) :
  <[length h := om']> (h ++ [om]) = h ++ [om'].
Proof.
  replace (length h) with (length h + 0) by lia.
  by rewrite insert_app_r.
Qed.

(** ** One turn of [Index.explode] *)

(** The turn at a state whose copy is [om]: nothing at a character other
    than [$], and at [$] the literal run, then the text of the placeholder. *)
Lemma Index_body_eq (str : jsstring) (options : Index.Options) (m : ref)
    (st : State) (om : jsobject) :
  heap st !! m = Some om →
  Index.body str options m st =
  Some (if char_is (str !! j st) "$" then
          let tk := getTemplateKey (drop (j st + 1) str) in
          let literal := slice (j st) (j st + length_ tk + 1) str in
          let r := if is_empty (key tk) then (literal, om)
                   else resolve options om (key tk) literal in
          {| heap := <[m := r.2]> (heap st);
             buffer := buffer st ++ slice (i st) (j st) str ++ r.1;
             i := j st + length_ tk + 1;
             j := j st + length_ tk |}
        else st).
Proof.
  intros Hm. unfold Index.body, resolve.
  destruct (char_is (str !! j st) "$"); [|done].
  cbv zeta. destruct (is_empty (key (getTemplateKey (drop (j st + 1) str)))); simpl.
  - rewrite (list_insert_id _ _ _ Hm). by rewrite <- app_assoc.
  - rewrite Hm. simpl.
    destruct (negb (truthy_flag (Index.ignoreDefaultExpansion options)));
      destruct (has om _); simpl;
      rewrite ?andb_false_r, ?andb_true_r; simpl;
      repeat match goal with
        | |- context [if ?b then _ else _] => destruct b; simpl
        end;
      rewrite ?(list_insert_id _ _ _ Hm), <- ?app_assoc, ?app_nil_r; done.
Qed.

Lemma Index_body_heap (str : jsstring) (options : Index.Options) (h : store)
    (st : State) (om : jsobject) :
  heap st = h ++ [om] →
  ∃ st' om', Index.body str options (length h) st = Some st' ∧
             heap st' = h ++ [om'] ∧ j st ≤ j st'.
Proof.
  intros Hh. rewrite (Index_body_eq _ _ _ _ om) by (rewrite Hh; apply lookup_snoc).
  destruct (char_is (str !! j st) "$"); [|by eauto].
  eexists _, _. split; [done|]. simpl. rewrite Hh, insert_snoc. split; [done|lia].
Qed.

Lemma Index_body_related (p t : jsstring) (options : Index.Options)
    (b : jsstring) (h1 h2 : store) (s1 s2 : State) :
  related (length p) b h1 h2 s1 s2 →
  option_Forall2 (λ a c, related (length p) b h1 h2 (next a) (next c))
    (Index.body (p ++ t) options (length h1) s1)
    (Index.body t options (length h2) s2).
Proof.
  intros (om & Hh1 & Hh2 & Hb & Hi & Hj).
  rewrite (Index_body_eq _ _ _ s1 om) by (rewrite Hh1; apply lookup_snoc).
  rewrite (Index_body_eq _ _ _ s2 om) by (rewrite Hh2; apply lookup_snoc).
  rewrite Hj, lookup_app_add. constructor.
  destruct (char_is (t !! j s2) "$").
  - cbv zeta.
    replace (drop (length p + j s2 + 1) (p ++ t)) with (drop (j s2 + 1) t)
      by (by rewrite <- Nat.add_assoc, drop_app_add).
    set (tk := getTemplateKey (drop (j s2 + 1) t)).
    replace (length p + j s2 + length_ tk + 1)
      with (length p + (j s2 + length_ tk + 1)) by lia.
    rewrite Hi, !slice_app_add.
    set (r := if is_empty (key tk) then _ else _).
    exists r.2. simpl. rewrite Hh1, Hh2, !insert_snoc, Hb, <- app_assoc.
    repeat split; lia.
  - exists om. simpl. repeat split; try done; lia.
Qed.

(** The loop of [Index.explode] ends, and only ever writes the copy. *)
Lemma Index_loop_total (str : jsstring) (options : Index.Options) (h : store)
    (fuel : nat) (st : State) (om : jsobject) :
  heap st = h ++ [om] → length str - j st < fuel →
  ∃ r om', for_loop (length str) (Index.body str options (length h)) fuel st = Some r ∧
           heap r = h ++ [om'].
Proof.
  intros Hh Hfuel.
  destruct (for_loop_total (length str) (Index.body str options (length h))
              (λ s, ∃ o, heap s = h ++ [o])) with (fuel := fuel) (st := st)
    as (r & Hr & om' & Hom'); [|by eauto|done|by eauto].
  intros s [o Ho] _.
  destruct (Index_body_heap str options h s o Ho) as (s' & o' & Hs' & Ho' & Hj').
  exists s'. eauto.
Qed.

Lemma Index_loop_related (p t : jsstring) (options : Index.Options)
    (b : jsstring) (h1 h2 : store) (fuel : nat) (s1 s2 : State) :
  related (length p) b h1 h2 s1 s2 →
  option_Forall2 (related (length p) b h1 h2)
    (for_loop (length (p ++ t)) (Index.body (p ++ t) options (length h1)) fuel s1)
    (for_loop (length t) (Index.body t options (length h2)) fuel s2).
Proof.
  revert fuel s1 s2. apply for_loop_sim.
  - intros s1 s2 (om & _ & _ & _ & _ & Hj). rewrite Hj, length_app.
    destruct (Nat.ltb_spec (j s2) (length t)), (Nat.ltb_spec (length p + j s2) (length p + length t));
      (done || lia).
  - intros s1 s2. apply Index_body_related.
Qed.

(** ** [getTemplateKey] *)

Lemma indexOf_lt (c : N) (s : jsstring) (e : nat) : indexOf c s = Some e → e < length s.
Proof.
  revert e. induction s as [|x s IH]; intros e; simpl; [done|].
  destruct (N.eqb x c).
  - intros [= <-]. lia.
  - destruct (indexOf c s) as [e'|]; simpl; [|done].
    intros [= <-]. specialize (IH e' eq_refl). lia.
Qed.

Lemma word_end_le (rest : jsstring) (k : nat) : word_end rest k ≤ k + length rest.
Proof.
  revert k. induction rest as [|c rest IH]; intros k; simpl; [lia|].
  destruct (isAlphaNumeric c); [|lia]. specialize (IH (S k)). lia.
Qed.

(** The length [getTemplateKey] reports never reaches past the string. *)
Lemma getTemplateKey_length (str : jsstring) : length_ (getTemplateKey str) ≤ length str.
Proof.
  unfold getTemplateKey. destruct (char_is (str !! 0) "{").
  - destruct (indexOf (chr "}") str) as [e|] eqn:He; simpl; [|by rewrite drop_0].
    apply indexOf_lt in He. destruct e as [|[|e]]; simpl; lia.
  - destruct (isShellSpecialVar (str !! 0)); simpl; [lia|].
    apply (word_end_le str 0).
Qed.

(** ** [Index.explode] as a whole *)

Lemma Index_explode_total (str : jsstring) (mapping : ref)
    (options : Index.Options) (h : store) (src : jsobject) :
  h !! mapping = Some src →
  ∃ out om, Index.explode str mapping options h = Some (out, h ++ [om]).
Proof.
  intros Hsrc. unfold Index.explode. rewrite Hsrc. cbn [mbind option_bind].
  destruct (Index_loop_total str options h (S (length str))
              {| heap := h ++ [src]; buffer := []; i := 0; j := 0 |} src)
    as (r & om & -> & Hr); [done|simpl; lia|].
  simpl. rewrite Hr. eauto.
Qed.

(** A template that starts with text free of [$], then has a [$] whose
    placeholder leaves the copy as it is: the output is the text, what the
    placeholder stands for, and the output of the rest of the template. *)
Lemma Index_explode_head (pre rest : jsstring) (mapping : ref)
    (options : Index.Options) (h : store) (src : jsobject) :
  chr "$" ∉ pre → h !! mapping = Some src →
  let tk := getTemplateKey rest in
  let literal := chr "$" :: take (length_ tk) rest in
  let r := if is_empty (key tk) then (literal, src)
           else resolve options src (key tk) literal in
  r.2 = src →
  Index.explode (pre ++ chr "$" :: rest) mapping options h =
  '(out, h') ← Index.explode (drop (length_ tk) rest) mapping options h;
  Some (pre ++ r.1 ++ out, h').
Proof.
  intros Hpre Hsrc tk literal r Hr.
  pose proof (getTemplateKey_length rest) as Hn. fold tk in Hn.
  set (s := pre ++ chr "$" :: rest). set (t := drop (length_ tk) rest).
  set (p := pre ++ chr "$" :: take (length_ tk) rest).
  assert (s = p ++ t) as Hs.
  { unfold s, p, t. rewrite <- app_assoc. simpl. by rewrite take_drop. }
  assert (length p = length pre + length_ tk + 1) as Hp.
  { unfold p. rewrite length_app. simpl. rewrite length_take_le by done. lia. }
  unfold Index.explode at 1. rewrite Hsrc. cbn [mbind option_bind].
  (* the text before the first [$] *)
  replace (S (length s)) with (length pre + S (S (length rest)))
    by (unfold s; rewrite length_app; simpl; lia).
  rewrite for_loop_skip; cycle 1.
  { intros q Hq.
    rewrite (Index_body_eq _ _ _ _ src) by apply lookup_snoc.
    cbn [jump heap buffer i j Nat.add].
    unfold s. rewrite lookup_app_l by done.
    destruct (pre !! q) as [c|] eqn:Hc; cbn [char_is]; [|done].
    destruct (N.eqb_spec c (chr "$")) as [->|]; [|done].
    destruct Hpre. by eapply list_elem_of_lookup_2. }
  { simpl. unfold s. rewrite length_app. lia. }
  (* the turn at the [$] *)
  rewrite for_loop_S. unfold jump. cbn [heap buffer i j Nat.add].
  destruct (Nat.ltb_spec (length pre) (length s)) as [_|Hge];
    [|unfold s in Hge; rewrite length_app in Hge; simpl in Hge; lia].
  rewrite (Index_body_eq _ _ _ _ src) by apply lookup_snoc.
  cbn [heap buffer i j].
  assert (s !! length pre = Some (chr "$")) as -> by (by apply list_lookup_middle).
  replace (char_is (Some (chr "$")) "$") with true by done.
  replace (drop (length pre + 1) s) with rest
    by (unfold s; rewrite cons_middle, app_assoc; symmetry;
        apply drop_app_length'; rewrite length_app; simpl; lia).
  fold tk. cbv zeta.
  replace (slice (length pre) (length pre + length_ tk + 1) s) with literal; cycle 1.
  { unfold slice, s, literal. rewrite drop_app_length.
    by replace (length pre + length_ tk + 1 - length pre) with (S (length_ tk)) by lia. }
  fold r. rewrite Hr, insert_snoc.
  replace (slice 0 (length pre) s) with pre by (unfold s; by rewrite slice_0_app).
  cbn [mbind option_bind app].
  (* the turns after the placeholder *)
  rewrite Hs.
  destruct (Index_explode_total t mapping options h src Hsrc) as (out & om & Hout).
  rewrite Hout. unfold Index.explode in Hout. rewrite Hsrc in Hout. cbn [mbind option_bind] in Hout.
  destruct (for_loop (length t) _ _ _) as [r2|] eqn:Hr2 in Hout; simpl in Hout; [|done].
  injection Hout as <- Hh2.
  apply for_loop_mono with (fuel' := S (length rest)) in Hr2;
    [|unfold t; rewrite length_drop; lia].
  match goal with
  | |- context [for_loop _ _ _ ?st1] =>
      assert (related (length p) (pre ++ r.1) h h st1
                {| heap := h ++ [src]; buffer := []; i := 0; j := 0 |}) as HR
  end.
  { exists src. unfold next. simpl. rewrite app_nil_r. repeat split; lia. }
  pose proof (Index_loop_related p t options _ h h (S (length rest)) _ _ HR) as Hrel.
  rewrite Hr2 in Hrel.
  match type of Hrel with
  | option_Forall2 _ ?x _ => remember x as res eqn:Hres in *
  end.
  inversion Hrel as [r1 r2' (om' & Hh1 & Hh2' & Hb & Hi & _) |]; subst res r2'.
  simpl. do 2 f_equal.
  - rewrite Hb, Hi, drop_app_add, <- !app_assoc. done.
  - congruence.
Qed.

(** ** The file without options *)

Lemma Simple_body_eq (str : jsstring) (mapping : ref) (st : State) (om : jsobject) :
  heap st !! mapping = Some om →
  Simple.body str mapping st =
  Some (if char_is (str !! j st) "$" then
          let tk := getTemplateKey (drop (j st + 1) str) in
          let literal := slice (j st) (j st + length_ tk + 1) str in
          let e := if is_empty (key tk) then literal
                   else default [] (get om (key tk)) in
          {| heap := heap st;
             buffer := buffer st ++ slice (i st) (j st) str ++ e;
             i := j st + length_ tk + 1;
             j := j st + length_ tk |}
        else st).
Proof.
  intros Hm. unfold Simple.body.
  destruct (char_is (str !! j st) "$"); [|done].
  cbv zeta. destruct (is_empty (key (getTemplateKey (drop (j st + 1) str))));
    [|rewrite Hm]; simpl; by rewrite <- app_assoc.
Qed.

Lemma Simple_body_shift (p t : jsstring) (mapping : ref) (b : jsstring) (st : State) :
  Simple.body (p ++ t) mapping (shift (length p) b st) =
  shift (length p) b <$> Simple.body t mapping st.
Proof.
  unfold Simple.body, shift. cbn [heap buffer i j].
  rewrite lookup_app_add. destruct (char_is (t !! j st) "$"); [|done].
  replace (drop (length p + j st + 1) (p ++ t)) with (drop (j st + 1) t)
    by (by rewrite <- Nat.add_assoc, drop_app_add).
  set (tk := getTemplateKey (drop (j st + 1) t)). cbv zeta.
  replace (length p + j st + length_ tk + 1)
    with (length p + (j st + length_ tk + 1)) by lia.
  rewrite !slice_app_add.
  destruct (is_empty (key tk)); [|destruct (heap st !! mapping)]; simpl;
    rewrite <- ?app_assoc, ?Nat.add_assoc; done.
Qed.

Lemma Simple_loop_total (str : jsstring) (mapping : ref) (h : store)
    (om : jsobject) (fuel : nat) (st : State) :
  h !! mapping = Some om → heap st = h → length str - j st < fuel →
  ∃ r, for_loop (length str) (Simple.body str mapping) fuel st = Some r.
Proof.
  intros Hm Hh Hfuel.
  destruct (for_loop_total (length str) (Simple.body str mapping)
              (λ s, heap s = h)) with (fuel := fuel) (st := st)
    as (r & Hr & _); [|done|done|by eauto].
  intros s Hs _. rewrite (Simple_body_eq _ _ _ om) by (by rewrite Hs).
  eexists. split; [done|].
  destruct (char_is (str !! j s) "$"); simpl; split; (done || lia).
Qed.

Lemma Simple_loop_shift (p t : jsstring) (mapping : ref) (b : jsstring)
    (fuel : nat) (st : State) :
  for_loop (length (p ++ t)) (Simple.body (p ++ t) mapping) fuel
    (shift (length p) b st) =
  shift (length p) b <$> for_loop (length t) (Simple.body t mapping) fuel st.
Proof.
  pose proof (for_loop_sim (λ s1 s2, s1 = shift (length p) b s2)
                (length (p ++ t)) (length t)
                (Simple.body (p ++ t) mapping) (Simple.body t mapping)) as Hsim.
  destruct (Hsim) with (fuel := fuel) (s1 := shift (length p) b st) (s2 := st)
    as [r1 r2 -> |]; try done.
  - intros s1 s2 ->. simpl. rewrite length_app.
    destruct (Nat.ltb_spec (j s2) (length t)),
      (Nat.ltb_spec (length p + j s2) (length p + length t)); (done || lia).
  - intros s1 s2 ->. rewrite Simple_body_shift.
    destruct (Simple.body t mapping s2) as [s|]; simpl; constructor.
    unfold shift, next. simpl. f_equal. lia.
Qed.

Lemma Simple_explode_total (str : jsstring) (mapping : ref) (h : store)
    (om : jsobject) :
  h !! mapping = Some om → ∃ out, Simple.explode str mapping h = Some out.
Proof.
  intros Hm. unfold Simple.explode.
  destruct (Simple_loop_total str mapping h om (S (length str))
              {| heap := h; buffer := []; i := 0; j := 0 |})
    as (r & ->); [done|done|simpl; lia|].
  simpl. eauto.
Qed.

(** The counterpart of [Index_explode_head]. *)
Lemma Simple_explode_head (pre rest : jsstring) (mapping : ref) (h : store)
    (om : jsobject) :
  chr "$" ∉ pre → h !! mapping = Some om →
  let tk := getTemplateKey rest in
  let e := if is_empty (key tk) then chr "$" :: take (length_ tk) rest
           else default [] (get om (key tk)) in
  Simple.explode (pre ++ chr "$" :: rest) mapping h =
  out ← Simple.explode (drop (length_ tk) rest) mapping h;
  Some (pre ++ e ++ out).
Proof.
  intros Hpre Hm tk e.
  pose proof (getTemplateKey_length rest) as Hn. fold tk in Hn.
  set (s := pre ++ chr "$" :: rest). set (t := drop (length_ tk) rest).
  set (p := pre ++ chr "$" :: take (length_ tk) rest).
  assert (s = p ++ t) as Hs.
  { unfold s, p, t. rewrite <- app_assoc. simpl. by rewrite take_drop. }
  assert (length p = length pre + length_ tk + 1) as Hp.
  { unfold p. rewrite length_app. simpl. rewrite length_take_le by done. lia. }
  unfold Simple.explode at 1.
  replace (S (length s)) with (length pre + S (S (length rest)))
    by (unfold s; rewrite length_app; simpl; lia).
  rewrite for_loop_skip; cycle 1.
  { intros q Hq. rewrite (Simple_body_eq _ _ _ om) by done.
    cbn [jump heap buffer i j Nat.add].
    unfold s. rewrite lookup_app_l by done.
    destruct (pre !! q) as [c|] eqn:Hc; cbn [char_is]; [|done].
    destruct (N.eqb_spec c (chr "$")) as [->|]; [|done].
    destruct Hpre. by eapply list_elem_of_lookup_2. }
  { simpl. unfold s. rewrite length_app. lia. }
  rewrite for_loop_S. unfold jump. cbn [heap buffer i j Nat.add].
  destruct (Nat.ltb_spec (length pre) (length s)) as [_|Hge];
    [|unfold s in Hge; rewrite length_app in Hge; simpl in Hge; lia].
  rewrite (Simple_body_eq _ _ _ om) by done.
  cbn [heap buffer i j].
  assert (s !! length pre = Some (chr "$")) as -> by (by apply list_lookup_middle).
  replace (char_is (Some (chr "$")) "$") with true by done.
  replace (drop (length pre + 1) s) with rest
    by (unfold s; rewrite cons_middle, app_assoc; symmetry;
        apply drop_app_length'; rewrite length_app; simpl; lia).
  fold tk. cbv zeta.
  replace (slice (length pre) (length pre + length_ tk + 1) s)
    with (chr "$" :: take (length_ tk) rest); cycle 1.
  { unfold slice, s. rewrite drop_app_length.
    by replace (length pre + length_ tk + 1 - length pre) with (S (length_ tk)) by lia. }
  fold e.
  replace (slice 0 (length pre) s) with pre by (unfold s; by rewrite slice_0_app).
  cbn [mbind option_bind app].
  rewrite Hs.
  destruct (Simple_explode_total t mapping h om Hm) as (out & Hout).
  rewrite Hout. unfold Simple.explode in Hout.
  destruct (for_loop (length t) _ _ _) as [r2|] eqn:Hr2 in Hout; simpl in Hout; [|done].
  injection Hout as <-.
  apply for_loop_mono with (fuel' := S (length rest)) in Hr2;
    [|unfold t; rewrite length_drop; lia].
  match goal with
  | |- context [for_loop _ _ _ ?st1] =>
      replace st1 with (shift (length p) (pre ++ e)
                          {| heap := h; buffer := []; i := 0; j := 0 |})
  end; cycle 1.
  { unfold shift, next. simpl. rewrite app_nil_r. f_equal; lia. }
  rewrite Simple_loop_shift, Hr2. simpl.
  by rewrite drop_app_add, <- !app_assoc.
Qed.

(** ** What [getTemplateKey] finds *)

Lemma indexOf_app (c : N) (a b : jsstring) :
  c ∉ a → indexOf c (a ++ c :: b) = Some (length a).
Proof.
  induction a as [|x a IH]; simpl; intros Ha.
  - by rewrite N.eqb_refl.
  - apply not_elem_of_cons in Ha as [Hx Ha].
    destruct (N.eqb_spec x c) as [->|_]; [done|]. by rewrite IH.
Qed.

Lemma indexOf_None (c : N) (s : jsstring) : c ∉ s → indexOf c s = None.
Proof.
  induction s as [|x s IH]; simpl; intros Hs; [done|].
  apply not_elem_of_cons in Hs as [Hx Hs].
  destruct (N.eqb_spec x c) as [->|_]; [done|]. by rewrite IH.
Qed.

(** A lone [$] at the end of the template. *)
Lemma getTemplateKey_end : getTemplateKey [] = {| key := []; length_ := 0 |}.
Proof. done. Qed.

(** [$] before one of the special characters. *)
Lemma getTemplateKey_special (c : N) (rest : jsstring) :
  isShellSpecialVar (Some c) = true →
  getTemplateKey (c :: rest) = {| key := []; length_ := 0 |}.
Proof.
  intros Hc. unfold getTemplateKey. cbn [lookup list_lookup char_is].
  rewrite Hc. destruct (N.eqb_spec c (chr "{")) as [->|_]; [|done].
  by vm_compute in Hc.
Qed.

(** [${] with no closing brace after it. *)
Lemma getTemplateKey_unterminated (rest : jsstring) :
  chr "}" ∉ rest →
  getTemplateKey (chr "{" :: rest) = {| key := []; length_ := S (length rest) |}.
Proof.
  intros Hrest. unfold getTemplateKey. cbn [lookup list_lookup char_is].
  rewrite N.eqb_refl. cbn [indexOf].
  replace (N.eqb (chr "{") (chr "}")) with false by done.
  by rewrite indexOf_None.
Qed.

(** [${k}] with [k] not empty: the key is all of [k]. *)
Lemma getTemplateKey_braced (k post : jsstring) :
  chr "}" ∉ k → k ≠ [] →
  getTemplateKey (chr "{" :: k ++ chr "}" :: post) =
  {| key := k; length_ := length k + 2 |}.
Proof.
  intros Hk Hne. unfold getTemplateKey. cbn [lookup list_lookup char_is].
  rewrite N.eqb_refl. cbn [indexOf].
  replace (N.eqb (chr "{") (chr "}")) with false by done.
  rewrite indexOf_app by done. cbn [fmap option_fmap option_map].
  destruct k as [|c k]; [done|]. cbn [length].
  f_equal; [|lia]. unfold slice. cbn [drop]. rewrite Nat.sub_succ, Nat.sub_0_r.
  rewrite drop_0. apply (take_app_length (c :: k)).
Qed.

Lemma Index_explode_nil (mapping : ref) (options : Index.Options) (h : store)
    (src : jsobject) :
  h !! mapping = Some src → Index.explode [] mapping options h = Some ([], h ++ [src]).
Proof. intros Hsrc. unfold Index.explode. by rewrite Hsrc. Qed.

Lemma Simple_explode_nil (mapping : ref) (h : store) :
  Simple.explode [] mapping h = Some [].
Proof. done. Qed.

(** ** Placeholders that leave the copy alone *)

Lemma Index_explode_failed_key (pre rest : jsstring) (mapping : ref)
    (options : Index.Options) (h : store) (src : jsobject) :
  chr "$" ∉ pre → h !! mapping = Some src →
  key (getTemplateKey rest) = [] →
  Index.explode (pre ++ chr "$" :: rest) mapping options h =
  '(out, h') ← Index.explode (drop (length_ (getTemplateKey rest)) rest) mapping options h;
  Some (pre ++ (chr "$" :: take (length_ (getTemplateKey rest)) rest) ++ out, h').
Proof.
  intros Hpre Hsrc Hkey.
  pose proof (Index_explode_head pre rest mapping options h src Hpre Hsrc) as Hhead.
  cbv zeta in Hhead. rewrite Hkey in Hhead. by apply Hhead.
Qed.

Lemma Index_explode_key (pre rest : jsstring) (mapping : ref)
    (options : Index.Options) (h : store) (src : jsobject)
    (k : jsstring) (n : nat) (text : jsstring) :
  chr "$" ∉ pre → h !! mapping = Some src →
  getTemplateKey rest = {| key := k; length_ := n |} → k ≠ [] →
  resolve options src k (chr "$" :: take n rest) = (text, src) →
  Index.explode (pre ++ chr "$" :: rest) mapping options h =
  '(out, h') ← Index.explode (drop n rest) mapping options h;
  Some (pre ++ text ++ out, h').
Proof.
  intros Hpre Hsrc Htk Hk Hres.
  pose proof (Index_explode_head pre rest mapping options h src Hpre Hsrc) as Hhead.
  cbv zeta in Hhead. rewrite Htk in Hhead. cbn [key length_] in Hhead.
  destruct k as [|c k]; [done|]. cbn [is_empty] in Hhead.
  rewrite Hres in Hhead. by apply Hhead.
Qed.

(** A key that is in the copy stands for the value stored there, whatever
    the options and the default, and the copy stays as it is. *)
Lemma resolve_present (options : Index.Options) (om : jsobject)
    (k literal : jsstring) :
  has om (to_key (split k !! 0)) = true →
  resolve options om k literal = (to_string (get om (to_key (split k !! 0))), om).
Proof.
  intros Hhas. unfold resolve. rewrite Hhas. cbn [negb].
  by rewrite andb_false_r.
Qed.

(** ** [split] *)

Lemma split_from_cons2 (cur : jsstring) (c d : N) (s : jsstring) :
  split_from cur (c :: d :: s) =
  if is_operator c d then cur :: split_from [] s
  else split_from (cur ++ [c]) (d :: s).
Proof. done. Qed.

Lemma includes_cons2 (a b c d : N) (s : jsstring) :
  includes [a; b] (c :: d :: s) = false → N.eqb a c && N.eqb b d = false.
Proof.
  cbn [includes starts_with]. rewrite andb_true_r.
  by intros [? _]%orb_false_elim.
Qed.

Lemma includes_tail (p : jsstring) (c : N) (s : jsstring) :
  includes p (c :: s) = false → includes p s = false.
Proof. cbn [includes]. by intros [_ ?]%orb_false_elim. Qed.

(** Text free of operators, then an operator: the text is one piece, and
    the split goes on after the operator. *)
Lemma split_from_operator (cur k op rest : jsstring) :
  includes (lit ":-") k = false → includes (lit ":=") k = false →
  op = lit ":-" ∨ op = lit ":=" →
  split_from cur (k ++ op ++ rest) = (cur ++ k) :: split_from [] rest.
Proof.
  intros Hminus Hequal Hop. revert cur Hminus Hequal.
  induction k as [|c k IH]; intros cur Hminus Hequal.
  - rewrite app_nil_r. by destruct Hop as [-> | ->].
  - destruct k as [|d k].
    + transitivity (split_from (cur ++ [c]) ([] ++ op ++ rest)).
      { destruct Hop as [-> | ->].
        - change ([c] ++ lit ":-" ++ rest) with (c :: chr ":" :: ([] ++ lit "-" ++ rest)).
          rewrite split_from_cons2. unfold is_operator.
          replace (N.eqb (chr ":") (chr "=") || N.eqb (chr ":") (chr "-"))
            with false by done.
          by rewrite andb_false_r.
        - change ([c] ++ lit ":=" ++ rest) with (c :: chr ":" :: ([] ++ lit "=" ++ rest)).
          rewrite split_from_cons2. unfold is_operator.
          replace (N.eqb (chr ":") (chr "=") || N.eqb (chr ":") (chr "-"))
            with false by done.
          by rewrite andb_false_r. }
      rewrite IH by done. by rewrite app_nil_r.
    + transitivity (split_from (cur ++ [c]) ((d :: k) ++ op ++ rest)).
      { change ((c :: d :: k) ++ op ++ rest) with (c :: d :: (k ++ op ++ rest)).
        rewrite split_from_cons2.
        apply (includes_cons2 (chr ":") (chr "-")) in Hminus.
        apply (includes_cons2 (chr ":") (chr "=")) in Hequal.
        unfold is_operator.
        rewrite (N.eqb_sym c), (N.eqb_sym d (chr "=")), (N.eqb_sym d (chr "-")).
        destruct (N.eqb (chr ":") c); [|done].
        cbn [andb] in *. by rewrite Hminus, Hequal. }
      rewrite IH by (by eapply includes_tail). by rewrite <- app_assoc.
Qed.


(** A template without [$] comes back as it is, and the copy is a plain
    copy of the mapping. *)
Lemma Index_explode_plain (str : jsstring) (mapping : ref)
    (options : Index.Options) (h : store) (src : jsobject) :
  chr "$" ∉ str → h !! mapping = Some src →
  Index.explode str mapping options h = Some (str, h ++ [src]).
Proof.
  intros Hstr Hsrc. unfold Index.explode. rewrite Hsrc. cbn [mbind option_bind].
  replace (S (length str)) with (length str + 1) by lia.
  rewrite for_loop_skip; [| |done].
  - rewrite for_loop_S. unfold jump. cbn [heap buffer i j Nat.add].
    by rewrite Nat.ltb_irrefl.
  - intros q Hq. rewrite (Index_body_eq _ _ _ _ src) by apply lookup_snoc.
    cbn [jump heap buffer i j Nat.add].
    destruct (str !! q) as [c|] eqn:Hc; cbn [char_is]; [|done].
    destruct (N.eqb_spec c (chr "$")) as [->|]; [|done].
    destruct Hstr. by eapply list_elem_of_lookup_2.
Qed.

(** A key stored with the value undefined, in [index.ts]: the placeholder
    stands for the text [undefined]. *)
Lemma Index_explode_stored_undefined (pre rest : jsstring) (mapping : ref)
    (options : Index.Options) (h : store) (src : jsobject)
    (k realKey : jsstring) (n : nat) :
  chr "$" ∉ pre → h !! mapping = Some src →
  getTemplateKey rest = {| key := k; length_ := n |} → k ≠ [] →
  split k !! 0 = Some realKey → src !! realKey = Some None →
  Index.explode (pre ++ chr "$" :: rest) mapping options h =
  '(out, h') ← Index.explode (drop n rest) mapping options h;
  Some (pre ++ lit "undefined" ++ out, h').
Proof.
  intros Hpre Hsrc Htk Hk Hsplit Hstored.
  apply (Index_explode_key pre rest mapping options h src k n); try done.
  rewrite resolve_present; rewrite Hsplit; cbn [to_key default id];
    unfold has, get; by rewrite Hstored.
Qed.

(** Two operators in one key: the pieces before the first and between the
    two are the first two pieces [split] returns. *)
Lemma split_two_operators (a b c op1 op2 : jsstring) :
  includes (lit ":-") a = false → includes (lit ":=") a = false →
  includes (lit ":-") b = false → includes (lit ":=") b = false →
  op1 = lit ":-" ∨ op1 = lit ":=" → op2 = lit ":-" ∨ op2 = lit ":=" →
  split (a ++ op1 ++ b ++ op2 ++ c) = a :: b :: split c.
Proof.
  intros Ha1 Ha2 Hb1 Hb2 Hop1 Hop2. unfold split.
  rewrite (split_from_operator [] a op1 _ Ha1 Ha2 Hop1).
  by rewrite (split_from_operator [] b op2 _ Hb1 Hb2 Hop2).
Qed.

(** ** The code on the templates of its documentation *)

(** The examples of the documentation of [index.ts]. *)
Example explode_documented :
  fst <$> Index.explode (lit "Hello, $name!") 0 Index.DEFAULT_OPTIONS [obj [prop "name" "World"]]
  = Some (lit "Hello, World!") ∧
  fst <$> Index.explode (lit "Hello, ${name}!") 0 Index.DEFAULT_OPTIONS [obj [prop "name" "World"]]
  = Some (lit "Hello, World!") ∧
  fst <$> Index.explode (lit "Hello, $name! or $USER") 0 (OPTS true false) [obj [prop "USER" "you"]]
  = Some (lit "Hello, $name! or you") ∧
  fst <$> Index.explode (lit "Hello, ${name:=World}!") 0 (OPTS false true) [obj []]
  = Some (lit "Hello, !") ∧
  fst <$> Index.explode (lit "Hello, ${name:=World}!") 0 (OPTS false false) [obj []]
  = Some (lit "Hello, World!") ∧
  fst <$> Index.explode (lit "Hello, ${name:=World}! Bye, ${name}.") 0 (OPTS false false) [obj []]
  = Some (lit "Hello, World! Bye, World.").
Proof. repeat (split; [vm_compute; reflexivity|]). vm_compute. reflexivity. Qed.

(** Malformed templates come back as they are, from both files. *)
Example explode_malformed :
  fst <$> Index.explode (lit "${") 0 Index.DEFAULT_OPTIONS [obj []] = Some (lit "${") ∧
  fst <$> Index.explode (lit "${}") 0 Index.DEFAULT_OPTIONS [obj []] = Some (lit "${}") ∧
  fst <$> Index.explode (lit "a$") 0 Index.DEFAULT_OPTIONS [obj []] = Some (lit "a$") ∧
  Simple.explode (lit "${") 0 [obj []] = Some (lit "${") ∧
  Simple.explode (lit "${}") 0 [obj []] = Some (lit "${}") ∧
  Simple.explode (lit "a$") 0 [obj []] = Some (lit "a$").
Proof. repeat (split; [vm_compute; reflexivity|]). vm_compute. reflexivity. Qed.

(** A name every object inherits is in every mapping for the code: both
    files append the text of the inherited member. *)
Example explode_inherited_name :
  fst <$> Index.explode (lit "$toString") 0 Index.DEFAULT_OPTIONS [obj []]
  = Some (lit "function toString() { [native code] }") ∧
  Simple.explode (lit "$toString") 0 [obj []]
  = Some (lit "function toString() { [native code] }") ∧
  Simple.explode (lit "${constructor}") 0 [obj []]
  = Some (lit "function Object() { [native code] }") ∧
  fst <$> Index.explode (lit "${toString:-x}") 0 Index.DEFAULT_OPTIONS [obj []]
  = Some (lit "function toString() { [native code] }") ∧
  fst <$> Index.explode (lit "${toString}") 0 Index.DEFAULT_OPTIONS [obj [prop "toString" "own"]]
  = Some (lit "own").
Proof. repeat (split; [vm_compute; reflexivity|]). vm_compute. reflexivity. Qed.

(** A call that learns a default writes its copy only: the caller's object
    stays empty while the copy holds the default. *)
Example explode_writes_copy_only :
  Index.explode (lit "${a:=b}$a") 0 Index.DEFAULT_OPTIONS [obj []]
  = Some (lit "bb", [obj []; obj [prop "a" "b"]]).
Proof. vm_compute. reflexivity. Qed.

(** ** Lookups on a plain object *)

(** [k in o] is false exactly for a key that is not stored in [o] and is
    no member of [Object.prototype]. *)
Lemma has_false_iff (o : jsobject) (k : jsstring) :
  has o k = false ↔ o !! k = None ∧ Object_prototype !! k = None.
Proof.
  unfold has. destruct (o !! k); [by split; [|intros [? _]]|].
  destruct (Object_prototype !! k); split; (done || by intros [_ ?]).
Qed.

(** [o[k]] is undefined exactly for a key stored as undefined and for a key
    that is not stored and is no member of [Object.prototype]. *)
Lemma get_None_iff (o : jsobject) (k : jsstring) :
  get o k = None ↔
  o !! k = Some None ∨ (o !! k = None ∧ Object_prototype !! k = None).
Proof.
  unfold get. destruct (o !! k) as [[v|]|].
  - split; [done|]. by intros [?|[? _]].
  - split; [by left|done].
  - split; [by right|]. by intros [?|[_ ?]].
Qed.

(** A stored string is what the lookup gives, whatever [Object.prototype]
    holds under that name. *)
Lemma get_own (o : jsobject) (k : jsstring) (v : jsvalue) :
  o !! k = Some v → has o k = true ∧ get o k = v.
Proof. intros Hk. unfold has, get. by rewrite Hk. Qed.

(** * The claims *)

(** C1. [explode] never faults: for every template, every allocated
    mapping and every options record, the call of [src/index.ts] returns an
    output string (and a store), and so does the call of the file without
    options; the loop ends within its fuel and no read of the store fails.
    Malformed templates are templates like the others. *)
Theorem C1_explode_total (str : jsstring) (mapping : ref)
    (options : Index.Options) (h : store) :
  is_Some (h !! mapping) →
  (∃ out h', Index.explode str mapping options h = Some (out, h')) ∧
  (∃ out, Simple.explode str mapping h = Some out).
Proof.
  intros [src Hsrc]. split.
  - destruct (Index_explode_total str mapping options h src Hsrc) as (out & om & H).
    eauto.
  - by eapply Simple_explode_total.
Qed.

Lemma C1_explode_total_witness :
  is_Some (([obj []] : store) !! 0) ∧
  ((∃ out h', Index.explode (lit "a${") 0 Index.DEFAULT_OPTIONS [obj []] = Some (out, h')) ∧
   (∃ out, Simple.explode (lit "a${") 0 [obj []] = Some out)).
Proof.
  split; [by eexists|]. apply C1_explode_total. by eexists.
Defined.

(** C2. The code at the failing input. The mapping stores [a] with the
    value undefined; [index.ts] appends the text [undefined] for [$a] and
    for [${a}], where the claim asks for nothing; the file without options
    appends nothing. *)
Theorem C2_undefined_is_printed :
  Index.explode (lit "${a}") 0 Index.DEFAULT_OPTIONS [obj [prop_undefined "a"]]
  = Some (lit "undefined", [obj [prop_undefined "a"]; obj [prop_undefined "a"]]) ∧
  Index.explode (lit "<$a>") 0 Index.DEFAULT_OPTIONS [obj [prop_undefined "a"]]
  = Some (lit "<undefined>", [obj [prop_undefined "a"]; obj [prop_undefined "a"]]) ∧
  Simple.explode (lit "${a}") 0 [obj [prop_undefined "a"]] = Some [].
Proof. split; [|split]; vm_compute; reflexivity. Qed.

(** C3. The code at the failing input. The key [a:-b:=c] is cut at both
    operators, so the default is [b] and not the remainder [b:=c]: the
    placeholder stands for [b] on the empty mapping. *)
Theorem C3_default_stops_at_second_operator :
  split (lit "a:-b:=c") = [lit "a"; lit "b"; lit "c"] ∧
  Index.explode (lit "${a:-b:=c}") 0 Index.DEFAULT_OPTIONS [obj []]
  = Some (lit "b", [obj []; obj [prop "a" "b"]]).
Proof. split; vm_compute; reflexivity. Qed.

(** C4. The code at the failing input. The first operator of the key
    [a:-b:=c] is [:-], yet the copy is written, because the key holds [:=]
    further on: the later [${a}] stands for [b]. With [:-] alone the copy is
    not written, and with [:=] alone it is. *)
Theorem C4_later_operator_assigns :
  Index.explode (lit "${a:-b:=c}${a}") 0 Index.DEFAULT_OPTIONS [obj []]
  = Some (lit "bb", [obj []; obj [prop "a" "b"]]) ∧
  Index.explode (lit "${a:-b}${a}") 0 Index.DEFAULT_OPTIONS [obj []]
  = Some (lit "b", [obj []; obj []]) ∧
  Index.explode (lit "${a:=b}${a}") 0 Index.DEFAULT_OPTIONS [obj []]
  = Some (lit "bb", [obj []; obj [prop "a" "b"]]).
Proof. split; [|split]; vm_compute; reflexivity. Qed.

(** C5, as the claim words it, fails: on [${}] and the empty mapping the
    call does not return the empty string (neither file does). *)
Lemma C5_counterexample :
  fst <$> Index.explode (lit "${}") 0 Index.DEFAULT_OPTIONS [∅] ≠ Some [] ∧
  Simple.explode (lit "${}") 0 [∅] ≠ Some [].
Proof. split; vm_compute; discriminate. Qed.

(** C5, amended. For the template [${}] and the empty mapping, [explode]
    returns [${}] itself: the loop takes its one turn at the [$], appends
    the three characters as they stand, and ends with both cursors at 3. The
    copy is left empty. The file without options returns the same text. *)
Theorem C5_empty_braces_kept (mapping : ref) (options : Index.Options) (h : store) :
  h !! mapping = Some ∅ →
  for_loop 3 (Index.body (lit "${}") options (length h)) 4
    {| heap := h ++ [∅]; buffer := []; i := 0; j := 0 |} =
  Some {| heap := h ++ [∅]; buffer := lit "${}"; i := 3; j := 3 |} ∧
  Index.explode (lit "${}") mapping options h = Some (lit "${}", h ++ [∅]) ∧
  Simple.explode (lit "${}") mapping h = Some (lit "${}").
Proof.
  intros Hsrc. split; [|split].
  - vm_compute. reflexivity.
  - unfold Index.explode. rewrite Hsrc. vm_compute. reflexivity.
  - vm_compute. reflexivity.
Qed.

Lemma C5_empty_braces_kept_witness :
  ([∅] : store) !! 0 = Some ∅ ∧
  Index.explode (lit "${}") 0 Index.DEFAULT_OPTIONS [∅] = Some (lit "${}", [∅; ∅]).
Proof.
  split; [reflexivity|].
  apply (C5_empty_braces_kept 0 Index.DEFAULT_OPTIONS [∅] eq_refl).
Defined.

(** C6. Whenever the key parsed after a [$] is empty, the slice from the
    [$] through the [length] characters [getTemplateKey] reports is appended
    as it stands: for a template made of text without [$], a [$] and a rest
    whose key is empty, the output is the text, the [$] with the first
    [length] characters of the rest, and then the output for what is left
    of the rest. The three cases the claim names have an empty key by
    [getTemplateKey_end] (length 0), [getTemplateKey_special] (length 0) and
    [getTemplateKey_unterminated] (length: all of the rest). *)
Theorem C6_failed_key_is_literal (pre rest : jsstring) (mapping : ref)
    (options : Index.Options) (h : store) (src : jsobject) :
  chr "$" ∉ pre → h !! mapping = Some src →
  key (getTemplateKey rest) = [] →
  Index.explode (pre ++ chr "$" :: rest) mapping options h =
  '(out, h') ← Index.explode (drop (length_ (getTemplateKey rest)) rest) mapping options h;
  Some (pre ++ (chr "$" :: take (length_ (getTemplateKey rest)) rest) ++ out, h').
Proof. apply Index_explode_failed_key. Qed.

Lemma C6_failed_key_is_literal_witness :
  ((chr "$" ∉ lit "a") ∧ ([obj []] : store) !! 0 = Some (obj []) ∧
   key (getTemplateKey []) = [] ∧
   fst <$> Index.explode (lit "a$") 0 Index.DEFAULT_OPTIONS [obj []] = Some (lit "a$")) ∧
  (key (getTemplateKey (lit "1b")) = [] ∧
   fst <$> Index.explode (lit "a$1b") 0 Index.DEFAULT_OPTIONS [obj []] = Some (lit "a$1b")) ∧
  (key (getTemplateKey (lit "{key")) = [] ∧
   fst <$> Index.explode (lit "a${key") 0 Index.DEFAULT_OPTIONS [obj []] = Some (lit "a${key")).
Proof.
  assert (chr "$" ∉ lit "a") as Hpre by compute_done.
  split; [split; [exact Hpre|split; [reflexivity|split; [reflexivity|]]]|
          split; (split; [reflexivity|])].
  - change (lit "a$") with (lit "a" ++ [chr "$"]).
    rewrite (C6_failed_key_is_literal (lit "a") [] 0 Index.DEFAULT_OPTIONS
               [obj []] (obj []) Hpre eq_refl eq_refl).
    reflexivity.
  - change (lit "a$1b") with (lit "a" ++ chr "$" :: lit "1b").
    rewrite (C6_failed_key_is_literal (lit "a") (lit "1b") 0 Index.DEFAULT_OPTIONS
               [obj []] (obj []) Hpre eq_refl eq_refl).
    reflexivity.
  - change (lit "a${key") with (lit "a" ++ chr "$" :: lit "{key").
    rewrite (C6_failed_key_is_literal (lit "a") (lit "{key") 0 Index.DEFAULT_OPTIONS
               [obj []] (obj []) Hpre eq_refl eq_refl).
    reflexivity.
Defined.



(** C8. A call never changes the caller's mapping: every object that was
    in the store before the call, the mapping among them, is the same after
    it, since only the copy allocated by the call is ever written; and a
    second call with the same arguments, made in the store the first call
    left, returns the same output. *)
Theorem C8_mapping_not_mutated (str : jsstring) (mapping : ref)
    (options : Index.Options) (h : store) :
  is_Some (h !! mapping) →
  ∃ out h',
    Index.explode str mapping options h = Some (out, h') ∧
    (∀ l, l < length h → h' !! l = h !! l) ∧
    h' !! mapping = h !! mapping ∧
    ∃ h'', Index.explode str mapping options h' = Some (out, h'').
Proof.
  intros [src Hsrc].
  destruct (Index_explode_total str mapping options h src Hsrc) as (out & om & Hout).
  exists out, (h ++ [om]).
  assert (∀ l, l < length h → (h ++ [om]) !! l = h !! l) as Hframe
    by (intros l Hl; by apply lookup_app_l).
  split; [done|]. split; [done|]. split.
  { apply Hframe. by eapply lookup_lt_Some. }
  assert ((h ++ [om]) !! mapping = Some src) as Hsrc' by (by apply lookup_app_l_Some).
  destruct (Index_explode_total str mapping options (h ++ [om]) src Hsrc')
    as (out' & om' & Hout').
  exists ((h ++ [om]) ++ [om']). rewrite Hout'. do 2 f_equal.
  unfold Index.explode in Hout, Hout'. rewrite Hsrc in Hout. rewrite Hsrc' in Hout'.
  cbn [mbind option_bind] in Hout, Hout'.
  assert (related (length ([] : jsstring)) [] (h ++ [om]) h
            {| heap := (h ++ [om]) ++ [src]; buffer := []; i := 0; j := 0 |}
            {| heap := h ++ [src]; buffer := []; i := 0; j := 0 |}) as HR
    by (by exists src).
  pose proof (Index_loop_related [] str options [] _ _ (S (length str)) _ _ HR) as Hrel.
  cbn [app length] in Hrel.
  destruct (for_loop (length str) (Index.body str options (length (h ++ [om]))) _ _)
    as [r1|]; [|done].
  destruct (for_loop (length str) (Index.body str options (length h)) _ _)
    as [r2|]; [|done].
  cbn [mbind option_bind] in Hout, Hout'.
  injection Hout as <- _. injection Hout' as <- _.
  inversion Hrel as [a b (o & _ & _ & Hb & Hi & _)|]; subst a b.
  by rewrite Hb, Hi.
Qed.

Lemma C8_mapping_not_mutated_witness :
  is_Some (([obj []] : store) !! 0) ∧
  ∃ out h',
    Index.explode (lit "${a:=b}$a") 0 Index.DEFAULT_OPTIONS [obj []] = Some (out, h') ∧
    (∀ l, l < length [obj []] → h' !! l = [obj []] !! l) ∧
    h' !! 0 = [obj []] !! 0 ∧
    ∃ h'', Index.explode (lit "${a:=b}$a") 0 Index.DEFAULT_OPTIONS h' = Some (out, h'').
Proof.
  split; [by eexists|]. apply C8_mapping_not_mutated. by eexists.
Defined.



(** C10. Doubling the dollar sign does not escape a placeholder: the first
    [$] of [$$name] is followed by the special character [$], so it is
    appended alone and the scan goes on at the second [$], which starts the
    placeholder [$name]. For every mapping that stores the string [v] under
    [name], the output is [$] followed by [v], in both files, under every
    options record. *)
Theorem C10_double_dollar (mapping : ref) (options : Index.Options) (h : store)
    (om : jsobject) (v : jsstring) :
  h !! mapping = Some om → om !! lit "name" = Some (Some v) →
  Index.explode (lit "$$name") mapping options h = Some (chr "$" :: v, h ++ [om]) ∧
  Simple.explode (lit "$$name") mapping h = Some (chr "$" :: v).
Proof.
  intros Hom Hv.
  assert (chr "$" ∉ ([] : jsstring)) as Hnil by apply not_elem_of_nil.
  split.
  - change (lit "$$name") with ([] ++ chr "$" :: lit "$name").
    rewrite (Index_explode_failed_key [] (lit "$name") mapping options h om Hnil Hom eq_refl).
    change (drop _ (lit "$name")) with ([] ++ chr "$" :: lit "name").
    rewrite (Index_explode_key [] (lit "name") mapping options h om (lit "name") 4 v
               Hnil Hom eq_refl); [| done |].
    + change (drop 4 (lit "name")) with ([] : jsstring).
      rewrite (Index_explode_nil _ _ _ _ Hom). cbn [mbind option_bind].
      by rewrite app_nil_r.
    + rewrite resolve_present;
        change (to_key (split (lit "name") !! 0)) with (lit "name");
        unfold has, get; by rewrite Hv.
  - change (lit "$$name") with ([] ++ chr "$" :: lit "$name").
    rewrite (Simple_explode_head [] (lit "$name") mapping h om Hnil Hom).
    change (drop _ (lit "$name")) with ([] ++ chr "$" :: lit "name").
    rewrite (Simple_explode_head [] (lit "name") mapping h om Hnil Hom).
    change (drop _ (lit "name")) with ([] : jsstring).
    rewrite Simple_explode_nil. cbn [mbind option_bind].
    change (key (getTemplateKey (lit "name"))) with (lit "name").
    change (key (getTemplateKey (lit "$name"))) with ([] : jsstring).
    cbn [is_empty lit]. unfold get. rewrite Hv.
    change (length_ (getTemplateKey (lit "$name"))) with 0.
    cbn. by rewrite app_nil_r.
Qed.

Lemma C10_double_dollar_witness :
  ([obj [prop "name" "World"]] : store) !! 0 = Some (obj [prop "name" "World"]) ∧
  obj [prop "name" "World"] !! lit "name" = Some (Some (lit "World")) ∧
  Index.explode (lit "$$name") 0 Index.DEFAULT_OPTIONS [obj [prop "name" "World"]]
  = Some (lit "$World", [obj [prop "name" "World"]; obj [prop "name" "World"]]) ∧
  Simple.explode (lit "$$name") 0 [obj [prop "name" "World"]] = Some (lit "$World").
Proof.
  split; [reflexivity|]. split; [by vm_compute|].
  apply (C10_double_dollar 0 Index.DEFAULT_OPTIONS [obj [prop "name" "World"]]
           (obj [prop "name" "World"]) (lit "World") eq_refl).
  by vm_compute.
Defined.

(** * Further properties of the code *)

(** ** More on [split] and [includes] *)

(** Text without operator is one piece. *)
Lemma split_from_plain (cur k : jsstring) :
  includes (lit ":-") k = false → includes (lit ":=") k = false →
  split_from cur k = [cur ++ k].
Proof.
  revert cur. induction k as [|c k IH]; intros cur Hminus Hequal.
  - by rewrite app_nil_r.
  - destruct k as [|d k]; [done|].
    rewrite split_from_cons2.
    rewrite IH by (by eapply includes_tail).
    apply (includes_cons2 (chr ":") (chr "-")) in Hminus.
    apply (includes_cons2 (chr ":") (chr "=")) in Hequal.
    unfold is_operator.
    rewrite (N.eqb_sym c), (N.eqb_sym d (chr "=")), (N.eqb_sym d (chr "-")).
    destruct (N.eqb (chr ":") c); cbn [andb] in *;
      rewrite ?Hminus, ?Hequal; cbn [orb]; by rewrite <- app_assoc.
Qed.

Lemma includes_no_colon (x : N) (k : jsstring) :
  chr ":" ∉ k → includes [chr ":"; x] k = false.
Proof.
  induction k as [|c k IH]; intros Hk; [done|].
  apply not_elem_of_cons in Hk as [Hc Hk].
  cbn [includes starts_with]. rewrite (IH Hk), orb_false_r.
  destruct (N.eqb_spec (chr ":") c) as [Heq|_]; [by destruct Hc|done].
Qed.

Lemma includes_app_r (p a b : jsstring) : includes p b = true → includes p (a ++ b) = true.
Proof.
  intros Hb. induction a as [|c a IH]; [done|].
  cbn [app includes]. by rewrite IH, orb_true_r.
Qed.

(** [:=] does not arise where text without it meets [:-]. *)
Lemma includes_assign_minus (k d : jsstring) :
  includes (lit ":=") k = false → includes (lit ":=") d = false →
  includes (lit ":=") (k ++ lit ":-" ++ d) = false.
Proof.
  intros Hk Hd. induction k as [|c k IH].
  - change ([] ++ lit ":-" ++ d) with (chr ":" :: chr "-" :: d).
    change (lit ":=") with [chr ":"; chr "="] in *.
    cbn [includes starts_with]. destruct d as [|x d].
    + done.
    + rewrite Hd.
      replace (N.eqb (chr "=") (chr "-")) with false by done.
      replace (N.eqb (chr ":") (chr "-")) with false by done.
      done.
  - specialize (IH (includes_tail _ _ _ Hk)).
    change ((c :: k) ++ lit ":-" ++ d) with (c :: (k ++ lit ":-" ++ d)).
    cbn [includes]. rewrite IH, orb_false_r.
    destruct k as [|x k].
    + change (lit ":=") with [chr ":"; chr "="].
      change ([] ++ lit ":-" ++ d) with (chr ":" :: chr "-" :: d).
      cbn [starts_with].
      replace (N.eqb (chr "=") (chr ":")) with false by done.
      by rewrite andb_false_r.
    + change (lit ":=") with [chr ":"; chr "="] in *.
      apply includes_cons2 in Hk.
      cbn [app starts_with]. by rewrite andb_true_r.
Qed.

(** ** More on [getTemplateKey] *)

Lemma indexOf_Some (c : N) (s : jsstring) (e : nat) :
  indexOf c s = Some e → s = take e s ++ c :: drop (S e) s ∧ c ∉ take e s.
Proof.
  revert e. induction s as [|x s IH]; intros e; cbn [indexOf]; [done|].
  destruct (N.eqb_spec x c) as [->|Hx].
  - intros [= <-]. cbn [take drop app]. split; [by rewrite drop_0|apply not_elem_of_nil].
  - destruct (indexOf c s) as [e'|]; cbn [fmap option_fmap option_map]; [|done].
    intros [= <-]. destruct (IH e' eq_refl) as [Hs Hc].
    cbn [take drop app]. split; [by rewrite <- Hs|].
    apply not_elem_of_cons. by split.
Qed.

Lemma word_end_spec (rest : jsstring) (k : nat) :
  ∃ m, word_end rest k = k + m ∧ m ≤ length rest ∧
       Forall (λ c, isAlphaNumeric c = true) (take m rest) ∧
       (∀ c, rest !! m = Some c → isAlphaNumeric c = false).
Proof.
  revert k. induction rest as [|c rest IH]; intros k; cbn [word_end].
  - exists 0. rewrite Nat.add_0_r. by repeat split.
  - destruct (isAlphaNumeric c) eqn:Hc.
    + destruct (IH (S k)) as (m & Hm & Hle & Hall & Hnext).
      exists (S m). cbn [length take]. split; [lia|]. split; [lia|].
      split; [by constructor|done].
    + exists 0. rewrite Nat.add_0_r. cbn [take]. repeat split; [lia|done|].
      by intros c' [= <-].
Qed.

Lemma word_end_app (w rest : jsstring) (k : nat) :
  Forall (λ c, isAlphaNumeric c = true) w →
  (∀ c, rest !! 0 = Some c → isAlphaNumeric c = false) →
  word_end (w ++ rest) k = k + length w.
Proof.
  intros Hw Hrest. revert k. induction Hw as [|c w Hc Hw IH]; intros k.
  - cbn [app length]. rewrite Nat.add_0_r. destruct rest as [|c rest]; [done|].
    cbn [word_end]. by rewrite (Hrest c eq_refl).
  - cbn [app word_end length]. rewrite Hc, IH. lia.
Qed.

Lemma isAlphaNumeric_not_brace (c : N) : isAlphaNumeric c = true → N.eqb c (chr "{") = false.
Proof.
  intros Hc. destruct (N.eqb_spec c (chr "{")) as [->|]; [|done].
  by vm_compute in Hc.
Qed.

Lemma elem_of_slice (x : N) (a b : nat) (s : jsstring) : x ∈ slice a b s → x ∈ s.
Proof.
  unfold slice. intros Hx.
  apply elem_of_take in Hx as (n & Hx & _).
  rewrite lookup_drop in Hx. by eapply list_elem_of_lookup_2.
Qed.

(** The key is made of characters of the string. *)
Lemma getTemplateKey_key_elem (x : N) (str : jsstring) :
  x ∈ key (getTemplateKey str) → x ∈ str.
Proof.
  unfold getTemplateKey. destruct (char_is (str !! 0) "{").
  - destruct (indexOf (chr "}") str) as [[|[|e]]|]; cbn [key];
      try (by intros ?%elem_of_nil); apply elem_of_slice.
  - destruct (isShellSpecialVar (str !! 0)); cbn [key];
      [by intros ?%elem_of_nil|apply elem_of_slice].
Qed.

(** ** A placeholder that may write the copy *)

(** As [Index_explode_head], for any placeholder: what follows it is
    expanded as by a call on a mapping [mapping2] that holds the copy the
    placeholder leaves, in whatever store [h2] that mapping lives. *)
Lemma Index_explode_head_store (pre rest : jsstring) (mapping mapping2 : ref)
    (options : Index.Options) (h h2 : store) (src : jsobject) :
  chr "$" ∉ pre → h !! mapping = Some src →
  let tk := getTemplateKey rest in
  let literal := chr "$" :: take (length_ tk) rest in
  let r := if is_empty (key tk) then (literal, src)
           else resolve options src (key tk) literal in
  h2 !! mapping2 = Some r.2 →
  ∃ out om,
    Index.explode (drop (length_ tk) rest) mapping2 options h2 = Some (out, h2 ++ [om]) ∧
    Index.explode (pre ++ chr "$" :: rest) mapping options h
    = Some (pre ++ r.1 ++ out, h ++ [om]).
Proof.
  intros Hpre Hsrc tk literal r Hsrc2.
  pose proof (getTemplateKey_length rest) as Hn. fold tk in Hn.
  set (s := pre ++ chr "$" :: rest). set (t := drop (length_ tk) rest).
  set (p := pre ++ chr "$" :: take (length_ tk) rest).
  assert (s = p ++ t) as Hs.
  { unfold s, p, t. rewrite <- app_assoc. simpl. by rewrite take_drop. }
  assert (length p = length pre + length_ tk + 1) as Hp.
  { unfold p. rewrite length_app. simpl. rewrite length_take_le by done. lia. }
  destruct (Index_explode_total t mapping2 options h2 r.2 Hsrc2) as (out & om & Hout).
  exists out, om. split; [done|].
  unfold Index.explode. rewrite Hsrc. cbn [mbind option_bind].
  replace (S (length s)) with (length pre + S (S (length rest)))
    by (unfold s; rewrite length_app; simpl; lia).
  rewrite for_loop_skip; cycle 1.
  { intros q Hq.
    rewrite (Index_body_eq _ _ _ _ src) by apply lookup_snoc.
    cbn [jump heap buffer i j Nat.add].
    unfold s. rewrite lookup_app_l by done.
    destruct (pre !! q) as [c|] eqn:Hc; cbn [char_is]; [|done].
    destruct (N.eqb_spec c (chr "$")) as [->|]; [|done].
    destruct Hpre. by eapply list_elem_of_lookup_2. }
  { simpl. unfold s. rewrite length_app. lia. }
  rewrite for_loop_S. unfold jump. cbn [heap buffer i j Nat.add].
  destruct (Nat.ltb_spec (length pre) (length s)) as [_|Hge];
    [|unfold s in Hge; rewrite length_app in Hge; simpl in Hge; lia].
  rewrite (Index_body_eq _ _ _ _ src) by apply lookup_snoc.
  cbn [heap buffer i j].
  assert (s !! length pre = Some (chr "$")) as -> by (by apply list_lookup_middle).
  replace (char_is (Some (chr "$")) "$") with true by done.
  replace (drop (length pre + 1) s) with rest
    by (unfold s; rewrite cons_middle, app_assoc; symmetry;
        apply drop_app_length'; rewrite length_app; simpl; lia).
  fold tk. cbv zeta.
  replace (slice (length pre) (length pre + length_ tk + 1) s) with literal; cycle 1.
  { unfold slice, s, literal. rewrite drop_app_length.
    by replace (length pre + length_ tk + 1 - length pre) with (S (length_ tk)) by lia. }
  fold r. rewrite insert_snoc.
  replace (slice 0 (length pre) s) with pre by (unfold s; by rewrite slice_0_app).
  cbn [mbind option_bind app].
  rewrite Hs.
  unfold Index.explode in Hout. rewrite Hsrc2 in Hout. cbn [mbind option_bind] in Hout.
  destruct (for_loop (length t) _ _ _) as [r2|] eqn:Hr2 in Hout; simpl in Hout; [|done].
  injection Hout as <- Hh2.
  apply for_loop_mono with (fuel' := S (length rest)) in Hr2;
    [|unfold t; rewrite length_drop; lia].
  match goal with
  | |- context [for_loop _ _ _ ?st1] =>
      assert (related (length p) (pre ++ r.1) h h2 st1
                {| heap := h2 ++ [r.2]; buffer := []; i := 0; j := 0 |}) as HR
  end.
  { exists r.2. unfold next. simpl. rewrite app_nil_r. repeat split; lia. }
  pose proof (Index_loop_related p t options _ h h2 (S (length rest)) _ _ HR) as Hrel.
  rewrite Hr2 in Hrel.
  match type of Hrel with
  | option_Forall2 _ ?x _ => remember x as res eqn:Hres in *
  end.
  inversion Hrel as [r1 r2' (om' & Hh1 & Hh2' & Hb & Hi & _) |]; subst res r2'.
  simpl. do 2 f_equal.
  - rewrite Hb, Hi, drop_app_add, <- !app_assoc. done.
  - rewrite Hh1. f_equal. rewrite Hh2' in Hh2. by apply app_inj_tail in Hh2 as [_ ->].
Qed.

(** The output depends on the content of the mapping only, not on where it
    lives nor on what else the store holds. *)
Lemma Index_explode_content (str : jsstring) (mapping mapping2 : ref)
    (options : Index.Options) (h h2 : store) (src : jsobject) :
  h !! mapping = Some src → h2 !! mapping2 = Some src →
  ∃ out om, Index.explode str mapping options h = Some (out, h ++ [om]) ∧
            Index.explode str mapping2 options h2 = Some (out, h2 ++ [om]).
Proof.
  intros Hsrc Hsrc2.
  destruct (Index_explode_total str mapping options h src Hsrc) as (out & om & Hout).
  destruct (Index_explode_total str mapping2 options h2 src Hsrc2) as (out2 & om2 & Hout2).
  exists out, om. split; [done|]. rewrite Hout2.
  unfold Index.explode in Hout, Hout2. rewrite Hsrc in Hout. rewrite Hsrc2 in Hout2.
  cbn [mbind option_bind] in Hout, Hout2.
  assert (related (length ([] : jsstring)) [] h h2
            {| heap := h ++ [src]; buffer := []; i := 0; j := 0 |}
            {| heap := h2 ++ [src]; buffer := []; i := 0; j := 0 |}) as HR
    by (by exists src).
  pose proof (Index_loop_related [] str options [] _ _ (S (length str)) _ _ HR) as Hrel.
  cbn [app length] in Hrel.
  destruct (for_loop (length str) (Index.body str options (length h)) _ _)
    as [r1|]; [|done].
  destruct (for_loop (length str) (Index.body str options (length h2)) _ _)
    as [r2|]; [|done].
  cbn [mbind option_bind] in Hout, Hout2.
  injection Hout as <- Hh. injection Hout2 as <- Hh2.
  inversion Hrel as [a b (o & Ho1 & Ho2 & Hb & Hi & _)|]; subst a b.
  rewrite Hb, Hi. cbn [app Nat.add]. do 3 f_equal.
  rewrite Ho1 in Hh. rewrite Ho2 in Hh2.
  apply app_inj_tail in Hh as [_ <-]. by apply app_inj_tail in Hh2 as [_ <-].
Qed.

Lemma Simple_explode_plain (str : jsstring) (mapping : ref) (h : store) :
  chr "$" ∉ str → Simple.explode str mapping h = Some str.
Proof.
  intros Hstr. unfold Simple.explode.
  replace (S (length str)) with (length str + 1) by lia.
  rewrite for_loop_skip; [| |done].
  - rewrite for_loop_S. unfold jump. cbn [heap buffer i j Nat.add].
    by rewrite Nat.ltb_irrefl.
  - intros q Hq. unfold Simple.body. cbn [jump heap buffer i j Nat.add].
    destruct (str !! q) as [c|] eqn:Hc; cbn [char_is]; [|done].
    destruct (N.eqb_spec c (chr "$")) as [->|]; [|done].
    destruct Hstr. by eapply list_elem_of_lookup_2.
Qed.

(** X1. A template that holds no [$] is returned as it is by both
    [explode] functions, whatever the mapping and the options, and the copy
    [index.ts] makes is left equal to the mapping. *)
Theorem X1_plain_text_unchanged (str : jsstring) (mapping : ref)
    (options : Index.Options) (h : store) (src : jsobject) :
  chr "$" ∉ str → h !! mapping = Some src →
  Index.explode str mapping options h = Some (str, h ++ [src]) ∧
  Simple.explode str mapping h = Some str.
Proof.
  intros Hstr Hsrc. split.
  - by apply Index_explode_plain.
  - by apply Simple_explode_plain.
Qed.

Lemma X1_plain_text_unchanged_witness :
  (chr "$" ∉ lit "a {b} :- c") ∧
  ([obj [prop "b" "x"]] : store) !! 0 = Some (obj [prop "b" "x"]) ∧
  Index.explode (lit "a {b} :- c") 0 (OPTS true true) [obj [prop "b" "x"]]
  = Some (lit "a {b} :- c", [obj [prop "b" "x"]; obj [prop "b" "x"]]) ∧
  Simple.explode (lit "a {b} :- c") 0 [obj [prop "b" "x"]] = Some (lit "a {b} :- c").
Proof.
  assert (chr "$" ∉ lit "a {b} :- c") as Hstr by compute_done.
  split; [exact Hstr|]. split; [reflexivity|].
  exact (X1_plain_text_unchanged (lit "a {b} :- c") 0 (OPTS true true)
           [obj [prop "b" "x"]] (obj [prop "b" "x"]) Hstr eq_refl).
Defined.

(** X2. What a non-empty key returned by [getTemplateKey] looks like.
    Either the string is [{], the key, [}] and a rest, the key holds no [}]
    and the length is that of the key plus the two braces; or the string is
    the key and a rest, the key is made of word characters only, its first
    character is no special character (so it is no digit), the rest does
    not go on with a word character, and the length is that of the key. *)
Theorem X2_getTemplateKey_key_shape (str k : jsstring) (n : nat) :
  getTemplateKey str = {| key := k; length_ := n |} → k ≠ [] →
  (str = chr "{" :: k ++ chr "}" :: drop n str ∧ n = length k + 2 ∧ chr "}" ∉ k) ∨
  (str = k ++ drop n str ∧ n = length k ∧
   Forall (λ c, isAlphaNumeric c = true) k ∧
   isShellSpecialVar (str !! 0) = false ∧
   ∀ c, str !! n = Some c → isAlphaNumeric c = false).
Proof.
  unfold getTemplateKey. intros Htk Hk.
  destruct (char_is (str !! 0) "{") eqn:Hbrace.
  - left. destruct str as [|c0 s]; [done|]. cbn [lookup list_lookup char_is] in Hbrace.
    apply N.eqb_eq in Hbrace as ->.
    destruct (indexOf (chr "}") (chr "{" :: s)) as [e|] eqn:He; [|by inversion Htk; subst].
    destruct (indexOf_Some _ _ _ He) as [Hs Hnot].
    apply indexOf_lt in He. cbn [length] in He.
    destruct e as [|[|e]]; inversion Htk as [[Hkey Hn]]; subst k n; try done.
    unfold slice. cbn [take drop app Nat.sub Nat.add] in Hs, Hnot |- *.
    rewrite ?drop_0. replace (e + 1) with (S e) by lia.
    apply not_elem_of_cons in Hnot as [_ Hnot].
    split; [exact Hs|]. split; [|done].
    rewrite length_take_le by lia. lia.
  - right. destruct (isShellSpecialVar (str !! 0)) eqn:Hspecial;
      inversion Htk as [[Hkey Hn]]; [by subst|].
    destruct (word_end_spec str 0) as (m & Hm & Hle & Hall & Hnext).
    rewrite Hm in *. cbn [Nat.add] in *. unfold slice.
    rewrite drop_0, Nat.sub_0_r.
    repeat split; try done.
    + by rewrite take_drop.
    + by rewrite length_take_le.
Qed.

Lemma X2_getTemplateKey_key_shape_witness :
  getTemplateKey (lit "{a:-b}c}") = {| key := lit "a:-b"; length_ := 6 |} ∧
  lit "a:-b" ≠ [] ∧
  ((lit "{a:-b}c}" = chr "{" :: lit "a:-b" ++ chr "}" :: drop 6 (lit "{a:-b}c}") ∧
    6 = length (lit "a:-b") + 2 ∧ chr "}" ∉ lit "a:-b") ∨
   (lit "{a:-b}c}" = lit "a:-b" ++ drop 6 (lit "{a:-b}c}") ∧ 6 = length (lit "a:-b") ∧
    Forall (λ c, isAlphaNumeric c = true) (lit "a:-b") ∧
    isShellSpecialVar (lit "{a:-b}c}" !! 0) = false ∧
    ∀ c, lit "{a:-b}c}" !! 6 = Some c → isAlphaNumeric c = false)).
Proof.
  assert (lit "a:-b" ≠ []) as Hk by done.
  split; [reflexivity|]. split; [exact Hk|].
  exact (X2_getTemplateKey_key_shape (lit "{a:-b}c}") (lit "a:-b") 6 eq_refl Hk).
Defined.

(** X3. A bare key is the longest run of word characters: for a non-empty
    run [w] of letters, digits and underscores whose first character is not
    special (no digit), followed by a rest that does not start with a word
    character, [getTemplateKey] returns [w] as the key and its length. *)
Theorem X3_getTemplateKey_word (w rest : jsstring) :
  w ≠ [] → Forall (λ c, isAlphaNumeric c = true) w →
  isShellSpecialVar (w !! 0) = false →
  (∀ c, rest !! 0 = Some c → isAlphaNumeric c = false) →
  getTemplateKey (w ++ rest) = {| key := w; length_ := length w |}.
Proof.
  intros Hne Hw Hspecial Hrest. unfold getTemplateKey.
  destruct w as [|c w]; [done|].
  cbn [app lookup list_lookup char_is] in *.
  rewrite (isAlphaNumeric_not_brace c) by (by inversion Hw).
  rewrite Hspecial.
  change (c :: w ++ rest) with ((c :: w) ++ rest).
  rewrite (word_end_app (c :: w) rest 0 Hw Hrest). cbn [Nat.add].
  unfold slice. by rewrite drop_0, Nat.sub_0_r, take_app_length.
Qed.

Lemma X3_getTemplateKey_word_witness :
  lit "user_1" ≠ [] ∧ Forall (λ c, isAlphaNumeric c = true) (lit "user_1") ∧
  isShellSpecialVar (lit "user_1" !! 0) = false ∧
  (∀ c, lit "-x" !! 0 = Some c → isAlphaNumeric c = false) ∧
  getTemplateKey (lit "user_1-x") = {| key := lit "user_1"; length_ := 6 |}.
Proof.
  assert (lit "user_1" ≠ []) as Hne by done.
  assert (Forall (λ c, isAlphaNumeric c = true) (lit "user_1")) as Hw
    by (by repeat constructor).
  assert (∀ c, lit "-x" !! 0 = Some c → isAlphaNumeric c = false) as Hrest
    by (by intros c [= <-]).
  split; [exact Hne|]. split; [exact Hw|]. split; [reflexivity|]. split; [exact Hrest|].
  exact (X3_getTemplateKey_word (lit "user_1") (lit "-x") Hne Hw eq_refl Hrest).
Defined.

(** X4. A braced key is the text up to the first [}]: for every [k]
    without [}], empty or not, [getTemplateKey] applied to [{], [k], [}] and
    any rest returns [k] as the key and the length of [k] plus two. The
    case of [{}] that the code treats apart follows the same formula. *)
Theorem X4_getTemplateKey_braces (k post : jsstring) :
  chr "}" ∉ k →
  getTemplateKey (chr "{" :: k ++ chr "}" :: post) =
  {| key := k; length_ := length k + 2 |}.
Proof.
  intros Hk. destruct k as [|c k].
  - unfold getTemplateKey. cbn [app lookup list_lookup char_is indexOf].
    rewrite !N.eqb_refl.
    replace (N.eqb (chr "{") (chr "}")) with false by done. done.
  - by apply getTemplateKey_braced.
Qed.

Lemma X4_getTemplateKey_braces_witness :
  (chr "}" ∉ lit "a b:=$c") ∧
  getTemplateKey (lit "{a b:=$c}}d") = {| key := lit "a b:=$c"; length_ := 9 |}.
Proof.
  assert (chr "}" ∉ lit "a b:=$c") as Hk by compute_done.
  split; [exact Hk|].
  exact (X4_getTemplateKey_braces (lit "a b:=$c") (lit "}d") Hk).
Defined.

(** X5. [getTemplateKey] stays within its argument: the key is never
    longer than the length it reports, and that length is never more than
    the length of the string. *)
Theorem X5_getTemplateKey_bounds (str : jsstring) :
  length (key (getTemplateKey str)) ≤ length_ (getTemplateKey str) ∧
  length_ (getTemplateKey str) ≤ length str.
Proof.
  split; [|apply getTemplateKey_length].
  unfold getTemplateKey. destruct (char_is (str !! 0) "{").
  - destruct (indexOf (chr "}") str) as [e|] eqn:He; cbn [key length_ length]; [|lia].
    destruct e as [|[|e]]; cbn [key length_ length]; try lia;
      unfold slice; rewrite length_take; lia.
  - destruct (isShellSpecialVar (str !! 0)); cbn [key length_ length]; [lia|].
    unfold slice. rewrite length_take. lia.
Qed.

(** ** Braced placeholders in [index.ts] *)

(** The placeholder [${kk}] after text without [$]: it stands for what
    [resolve] gives on the mapping, and what follows is expanded as by a call
    on a mapping that holds the copy [resolve] leaves. *)
Lemma Index_explode_braced (pre kk post : jsstring) (mapping mapping2 : ref)
    (options : Index.Options) (h h2 : store) (src : jsobject) :
  chr "$" ∉ pre → chr "}" ∉ kk → kk ≠ [] → h !! mapping = Some src →
  h2 !! mapping2 = Some (resolve options src kk (lit "${" ++ kk ++ lit "}")).2 →
  ∃ out om,
    Index.explode post mapping2 options h2 = Some (out, h2 ++ [om]) ∧
    Index.explode (pre ++ (lit "${" ++ kk ++ lit "}") ++ post) mapping options h
    = Some (pre ++ (resolve options src kk (lit "${" ++ kk ++ lit "}")).1 ++ out,
            h ++ [om]).
Proof.
  intros Hpre Hbrace Hne Hsrc Hsrc2.
  set (rest := chr "{" :: kk ++ chr "}" :: post).
  assert (getTemplateKey rest = {| key := kk; length_ := length kk + 2 |}) as Htk
    by (by apply getTemplateKey_braced).
  assert (rest = (chr "{" :: kk ++ [chr "}"]) ++ post) as Hrest
    by (unfold rest; cbn [app]; f_equal; by rewrite <- app_assoc).
  assert (length (chr "{" :: kk ++ [chr "}"]) = length kk + 2) as Hlen
    by (cbn [length]; rewrite length_app; cbn [length]; lia).
  pose proof (Index_explode_head_store pre rest mapping mapping2 options h h2 src
                Hpre Hsrc) as Hhead.
  cbv zeta in Hhead. rewrite Htk in Hhead. cbn [key length_] in Hhead.
  destruct kk as [|c kk]; [done|]. cbn [is_empty] in Hhead.
  rewrite Hrest, take_app_length', drop_app_length' in Hhead by done.
  change (lit "${" ++ (c :: kk) ++ lit "}")
    with (chr "$" :: chr "{" :: (c :: kk) ++ [chr "}"]) in *.
  destruct (Hhead Hsrc2) as (out & om & Hout & Hall).
  exists out, om. split; [done|]. rewrite <- Hall. f_equal.
Qed.

(** The pieces of [k op d] for [k] without operator. *)
Lemma split_key_default (k op d : jsstring) :
  includes (lit ":-") k = false → includes (lit ":=") k = false →
  op = lit ":-" ∨ op = lit ":=" →
  split (k ++ op ++ d) !! 0 = Some k ∧
  split (k ++ op ++ d) !! 1 = split d !! 0.
Proof.
  intros Hminus Hequal Hop. unfold split.
  by rewrite (split_from_operator [] k op d Hminus Hequal Hop).
Qed.

Lemma split_plain (d : jsstring) :
  includes (lit ":-") d = false → includes (lit ":=") d = false → split d = [d].
Proof. intros Hminus Hequal. unfold split. by rewrite split_from_plain. Qed.

(** X6. A key that the mapping stores with a string wins over everything
    else: when the piece of the parsed key before its first operator is
    stored with the string [v], the placeholder stands for [v] under every
    options record and whatever default follows the operator, and the copy
    is not written, so that the rest is expanded as by a call of its own. *)
Theorem X6_stored_value_wins (pre rest : jsstring) (mapping : ref)
    (options : Index.Options) (h : store) (src : jsobject)
    (realKey v : jsstring) :
  chr "$" ∉ pre → h !! mapping = Some src →
  key (getTemplateKey rest) ≠ [] →
  split (key (getTemplateKey rest)) !! 0 = Some realKey →
  src !! realKey = Some (Some v) →
  Index.explode (pre ++ chr "$" :: rest) mapping options h =
  '(out, h') ← Index.explode (drop (length_ (getTemplateKey rest)) rest) mapping options h;
  Some (pre ++ v ++ out, h').
Proof.
  intros Hpre Hsrc Hkey Hsplit Hv.
  destruct (getTemplateKey rest) as [k n] eqn:Htk. cbn [key length_] in *.
  apply (Index_explode_key pre rest mapping options h src k n); try done.
  rewrite resolve_present; rewrite Hsplit; cbn [to_key default id];
    unfold has, get; by rewrite Hv.
Qed.

Lemma X6_stored_value_wins_witness :
  (chr "$" ∉ lit "Hi ") ∧
  ([obj [prop "name" "Ann"]] : store) !! 0 = Some (obj [prop "name" "Ann"]) ∧
  key (getTemplateKey (lit "{name:=World}!")) ≠ [] ∧
  split (key (getTemplateKey (lit "{name:=World}!"))) !! 0 = Some (lit "name") ∧
  obj [prop "name" "Ann"] !! lit "name" = Some (Some (lit "Ann")) ∧
  Index.explode (lit "Hi ${name:=World}!") 0 (OPTS true false) [obj [prop "name" "Ann"]]
  = Some (lit "Hi Ann!", [obj [prop "name" "Ann"]; obj [prop "name" "Ann"]]).
Proof.
  assert (chr "$" ∉ lit "Hi ") as Hpre by compute_done.
  assert (key (getTemplateKey (lit "{name:=World}!")) ≠ []) as Hkey by (by vm_compute).
  assert (obj [prop "name" "Ann"] !! lit "name" = Some (Some (lit "Ann"))) as Hv
    by (by vm_compute).
  split; [exact Hpre|]. split; [reflexivity|]. split; [exact Hkey|].
  split; [reflexivity|]. split; [exact Hv|].
  change (lit "Hi ${name:=World}!") with (lit "Hi " ++ chr "$" :: lit "{name:=World}!").
  rewrite (X6_stored_value_wins (lit "Hi ") (lit "{name:=World}!") 0 (OPTS true false)
             [obj [prop "name" "Ann"]] (obj [prop "name" "Ann"]) (lit "name") (lit "Ann")
             Hpre eq_refl Hkey eq_refl Hv).
  reflexivity.
Defined.

(** X7. The default of [${k:-d}] is used and forgotten: for a key [k]
    that is not in the mapping (the test [k in m] of the code is false: [k]
    is not stored and is no member of [Object.prototype]) and a non-empty
    default [d], both without
    brace and operator, and with [ignoreDefaultExpansion] unset or false, the
    placeholder stands for [d] and the copy is not written: what follows is
    expanded as by a call on the same mapping. *)
Theorem X7_minus_default_used (pre k d post : jsstring) (mapping : ref)
    (options : Index.Options) (h : store) (src : jsobject) :
  chr "$" ∉ pre → chr "}" ∉ k → chr "}" ∉ d → d ≠ [] →
  includes (lit ":-") k = false → includes (lit ":=") k = false →
  includes (lit ":-") d = false → includes (lit ":=") d = false →
  h !! mapping = Some src → has src k = false →
  truthy_flag (Index.ignoreDefaultExpansion options) = false →
  ∃ out om,
    Index.explode post mapping options h = Some (out, h ++ [om]) ∧
    Index.explode (pre ++ (lit "${" ++ (k ++ lit ":-" ++ d) ++ lit "}") ++ post)
      mapping options h
    = Some (pre ++ d ++ out, h ++ [om]).
Proof.
  intros Hpre Hk Hd Hne Hk1 Hk2 Hd1 Hd2 Hsrc Habsent Hflag.
  assert (resolve options src (k ++ lit ":-" ++ d)
            (lit "${" ++ (k ++ lit ":-" ++ d) ++ lit "}") = (d, src)) as Hres.
  { unfold resolve.
    destruct (split_key_default k (lit ":-") d Hk1 Hk2 (or_introl eq_refl)) as [-> ->].
    rewrite (split_plain d Hd1 Hd2), Hflag, (includes_assign_minus k d Hk2 Hd2).
    cbn [lookup list_lookup to_key default id negb andb].
    rewrite Habsent. destruct d; [done|].
    cbn [truthy andb to_string default id]. by rewrite andb_false_r. }
  destruct (Index_explode_braced pre (k ++ lit ":-" ++ d) post mapping mapping options
              h h src) as (out & om & Hout & Hall); try done.
  - rewrite !not_elem_of_app. split; [done|]. split; [compute_done|done].
  - intros [_ [? _]%app_eq_nil]%app_eq_nil. done.
  - by rewrite Hres.
  - exists out, om. by rewrite Hres in Hall.
Qed.

Lemma X7_minus_default_used_witness :
  (chr "$" ∉ lit "Hi ") ∧ (chr "}" ∉ lit "name") ∧ (chr "}" ∉ lit "World") ∧
  lit "World" ≠ [] ∧
  includes (lit ":-") (lit "name") = false ∧ includes (lit ":=") (lit "name") = false ∧
  includes (lit ":-") (lit "World") = false ∧ includes (lit ":=") (lit "World") = false ∧
  ([obj []] : store) !! 0 = Some (obj []) ∧ has (obj []) (lit "name") = false ∧
  truthy_flag (Index.ignoreDefaultExpansion (OPTS true false)) = false ∧
  ∃ out om,
    Index.explode (lit "! $name") 0 (OPTS true false) [obj []] = Some (out, [obj []] ++ [om]) ∧
    Index.explode (lit "Hi " ++ (lit "${" ++ (lit "name" ++ lit ":-" ++ lit "World") ++ lit "}")
                     ++ lit "! $name") 0 (OPTS true false) [obj []]
    = Some (lit "Hi " ++ lit "World" ++ out, [obj []] ++ [om]).
Proof.
  assert (chr "$" ∉ lit "Hi ") as Hpre by compute_done.
  assert (chr "}" ∉ lit "name") as Hk by compute_done.
  assert (chr "}" ∉ lit "World") as Hd by compute_done.
  assert (lit "World" ≠ []) as Hne by done.
  split; [exact Hpre|]. split; [exact Hk|]. split; [exact Hd|]. split; [exact Hne|].
  do 7 (split; [reflexivity|]).
  exact (X7_minus_default_used (lit "Hi ") (lit "name") (lit "World") (lit "! $name") 0
           (OPTS true false) [obj []] (obj []) Hpre Hk Hd Hne
           eq_refl eq_refl eq_refl eq_refl eq_refl eq_refl eq_refl).
Defined.

(** X8. The default of [${k:=d}] is used and remembered for the rest of
    the call: for a key [k] that is not in the mapping (the test [k in m] of
    the code is false: [k] is not stored and is no member of
    [Object.prototype]) and a non-empty default [d], both without brace and
    operator, and with
    [ignoreDefaultExpansion] unset or false, the placeholder stands for [d],
    and what follows is expanded as by a call on a mapping that holds the
    caller's mapping with [k] set to [d]. *)
Theorem X8_assign_default_remembered (pre k d post : jsstring)
    (mapping mapping2 : ref) (options : Index.Options) (h h2 : store)
    (src : jsobject) :
  chr "$" ∉ pre → chr "}" ∉ k → chr "}" ∉ d → d ≠ [] →
  includes (lit ":-") k = false → includes (lit ":=") k = false →
  includes (lit ":-") d = false → includes (lit ":=") d = false →
  h !! mapping = Some src → has src k = false →
  truthy_flag (Index.ignoreDefaultExpansion options) = false →
  h2 !! mapping2 = Some (<[k := Some d]> src) →
  ∃ out om,
    Index.explode post mapping2 options h2 = Some (out, h2 ++ [om]) ∧
    Index.explode (pre ++ (lit "${" ++ (k ++ lit ":=" ++ d) ++ lit "}") ++ post)
      mapping options h
    = Some (pre ++ d ++ out, h ++ [om]).
Proof.
  intros Hpre Hk Hd Hne Hk1 Hk2 Hd1 Hd2 Hsrc Habsent Hflag Hsrc2.
  assert (resolve options src (k ++ lit ":=" ++ d)
            (lit "${" ++ (k ++ lit ":=" ++ d) ++ lit "}")
          = (d, <[k := Some d]> src)) as Hres.
  { unfold resolve.
    destruct (split_key_default k (lit ":=") d Hk1 Hk2 (or_intror eq_refl)) as [-> ->].
    rewrite (split_plain d Hd1 Hd2), Hflag.
    rewrite (includes_app_r (lit ":=") k (lit ":=" ++ d)) by done.
    cbn [lookup list_lookup to_key default id negb andb].
    rewrite Habsent. destruct d; [done|]. done. }
  destruct (Index_explode_braced pre (k ++ lit ":=" ++ d) post mapping mapping2 options
              h h2 src) as (out & om & Hout & Hall); try done.
  - rewrite !not_elem_of_app. split; [done|]. split; [compute_done|done].
  - intros [_ [? _]%app_eq_nil]%app_eq_nil. done.
  - by rewrite Hres.
  - exists out, om. by rewrite Hres in Hall.
Qed.

Lemma X8_assign_default_remembered_witness :
  (chr "$" ∉ lit "Hi ") ∧ (chr "}" ∉ lit "name") ∧ (chr "}" ∉ lit "World") ∧
  lit "World" ≠ [] ∧
  includes (lit ":-") (lit "name") = false ∧ includes (lit ":=") (lit "name") = false ∧
  includes (lit ":-") (lit "World") = false ∧ includes (lit ":=") (lit "World") = false ∧
  ([obj []] : store) !! 0 = Some (obj []) ∧ has (obj []) (lit "name") = false ∧
  truthy_flag (Index.ignoreDefaultExpansion Index.DEFAULT_OPTIONS) = false ∧
  ([obj [prop "name" "World"]] : store) !! 0 = Some (<[lit "name" := Some (lit "World")]> (obj [])) ∧
  ∃ out om,
    Index.explode (lit "! $name") 0 Index.DEFAULT_OPTIONS [obj [prop "name" "World"]]
    = Some (out, [obj [prop "name" "World"]] ++ [om]) ∧
    Index.explode (lit "Hi " ++ (lit "${" ++ (lit "name" ++ lit ":=" ++ lit "World") ++ lit "}")
                     ++ lit "! $name") 0 Index.DEFAULT_OPTIONS [obj []]
    = Some (lit "Hi " ++ lit "World" ++ out, [obj []] ++ [om]).
Proof.
  assert (chr "$" ∉ lit "Hi ") as Hpre by compute_done.
  assert (chr "}" ∉ lit "name") as Hk by compute_done.
  assert (chr "}" ∉ lit "World") as Hd by compute_done.
  assert (lit "World" ≠ []) as Hne by done.
  assert (([obj [prop "name" "World"]] : store) !! 0
          = Some (<[lit "name" := Some (lit "World")]> (obj []))) as Hsrc2
    by (by vm_compute).
  split; [exact Hpre|]. split; [exact Hk|]. split; [exact Hd|]. split; [exact Hne|].
  do 7 (split; [reflexivity|]). split; [exact Hsrc2|].
  exact (X8_assign_default_remembered (lit "Hi ") (lit "name") (lit "World") (lit "! $name")
           0 0 Index.DEFAULT_OPTIONS [obj []] [obj [prop "name" "World"]] (obj [])
           Hpre Hk Hd Hne eq_refl eq_refl eq_refl eq_refl eq_refl eq_refl eq_refl Hsrc2).
Defined.

(** The whole of the documented example: the default is seen by the later
    placeholder. *)
Example explode_assign_then_use :
  Index.explode (lit "Hi ${name:=World}! $name") 0 Index.DEFAULT_OPTIONS [obj []]
  = Some (lit "Hi World! World", [obj []; obj [prop "name" "World"]]).
Proof. vm_compute. reflexivity. Qed.

(** X9. With [ignoreDefaultExpansion] set, a default is neither used nor
    remembered: for a key [k] without brace and operator that is not in the
    mapping (the test [k in m] of the code is false: [k] is not stored and is
    no member of [Object.prototype]), [${k:-d}] and [${k:=d}] stand for
    nothing, or for their own text
    when [ignoreUnsetVars] is set too, whatever [d] is, and the copy is not
    written. *)
Theorem X9_default_expansion_ignored (pre k op d post : jsstring) (mapping : ref)
    (options : Index.Options) (h : store) (src : jsobject) :
  chr "$" ∉ pre → chr "}" ∉ k → chr "}" ∉ d →
  includes (lit ":-") k = false → includes (lit ":=") k = false →
  op = lit ":-" ∨ op = lit ":=" →
  h !! mapping = Some src → has src k = false →
  truthy_flag (Index.ignoreDefaultExpansion options) = true →
  ∃ out om,
    Index.explode post mapping options h = Some (out, h ++ [om]) ∧
    Index.explode (pre ++ (lit "${" ++ (k ++ op ++ d) ++ lit "}") ++ post)
      mapping options h
    = Some (pre ++ (if truthy_flag (Index.ignoreUnsetVars options)
                    then lit "${" ++ (k ++ op ++ d) ++ lit "}" else []) ++ out,
            h ++ [om]).
Proof.
  intros Hpre Hk Hd Hk1 Hk2 Hop Hsrc Habsent Hflag.
  assert (resolve options src (k ++ op ++ d) (lit "${" ++ (k ++ op ++ d) ++ lit "}")
          = (if truthy_flag (Index.ignoreUnsetVars options)
             then lit "${" ++ (k ++ op ++ d) ++ lit "}" else [], src)) as Hres.
  { unfold resolve.
    destruct (split_key_default k op d Hk1 Hk2 Hop) as [-> ->].
    rewrite Hflag. cbn [to_key default id negb andb].
    rewrite Habsent. by rewrite andb_false_r. }
  destruct (Index_explode_braced pre (k ++ op ++ d) post mapping mapping options
              h h src) as (out & om & Hout & Hall); try done.
  - rewrite !not_elem_of_app. split; [done|]. split; [|done].
    by destruct Hop as [-> | ->]; compute_done.
  - intros [_ [? _]%app_eq_nil]%app_eq_nil. by destruct Hop as [-> | ->]; subst.
  - by rewrite Hres.
  - exists out, om. by rewrite Hres in Hall.
Qed.

Lemma X9_default_expansion_ignored_witness :
  (chr "$" ∉ lit "Hi ") ∧ (chr "}" ∉ lit "name") ∧ (chr "}" ∉ lit "World") ∧
  includes (lit ":-") (lit "name") = false ∧ includes (lit ":=") (lit "name") = false ∧
  ([obj []] : store) !! 0 = Some (obj []) ∧ has (obj []) (lit "name") = false ∧
  truthy_flag (Index.ignoreDefaultExpansion (OPTS false true)) = true ∧
  ∃ out om,
    Index.explode (lit "!") 0 (OPTS false true) [obj []] = Some (out, [obj []] ++ [om]) ∧
    Index.explode (lit "Hi " ++ (lit "${" ++ (lit "name" ++ lit ":=" ++ lit "World") ++ lit "}")
                     ++ lit "!") 0 (OPTS false true) [obj []]
    = Some (lit "Hi " ++ [] ++ out, [obj []] ++ [om]).
Proof.
  assert (chr "$" ∉ lit "Hi ") as Hpre by compute_done.
  assert (chr "}" ∉ lit "name") as Hk by compute_done.
  assert (chr "}" ∉ lit "World") as Hd by compute_done.
  split; [exact Hpre|]. split; [exact Hk|]. split; [exact Hd|].
  do 5 (split; [reflexivity|]).
  exact (X9_default_expansion_ignored (lit "Hi ") (lit "name") (lit ":=") (lit "World")
           (lit "!") 0 (OPTS false true) [obj []] (obj []) Hpre Hk Hd
           eq_refl eq_refl (or_intror eq_refl) eq_refl eq_refl eq_refl).
Defined.

(** X10. A key without default that the mapping does not hold: when the
    parsed key holds no operator and is not in the mapping (the test
    [key in m] of the code is false: the key is not stored and is no member
    of [Object.prototype]), the placeholder
    ([$k] or [${k}]) stands for nothing, or for its own text when
    [ignoreUnsetVars] is set, and the copy is not written. *)
Theorem X10_unset_key (pre rest : jsstring) (mapping : ref)
    (options : Index.Options) (h : store) (src : jsobject) :
  chr "$" ∉ pre → h !! mapping = Some src →
  key (getTemplateKey rest) ≠ [] →
  includes (lit ":-") (key (getTemplateKey rest)) = false →
  includes (lit ":=") (key (getTemplateKey rest)) = false →
  has src (key (getTemplateKey rest)) = false →
  Index.explode (pre ++ chr "$" :: rest) mapping options h =
  '(out, h') ← Index.explode (drop (length_ (getTemplateKey rest)) rest) mapping options h;
  Some (pre ++ (if truthy_flag (Index.ignoreUnsetVars options)
                then chr "$" :: take (length_ (getTemplateKey rest)) rest
                else []) ++ out, h').
Proof.
  intros Hpre Hsrc Hkey Hminus Hequal Habsent.
  destruct (getTemplateKey rest) as [k n] eqn:Htk. cbn [key length_] in *.
  apply (Index_explode_key pre rest mapping options h src k n); try done.
  unfold resolve. rewrite (split_plain k Hminus Hequal).
  cbn [lookup list_lookup to_key default id truthy opt_length fmap option_fmap
       option_map truthy_num andb].
  rewrite Habsent. by rewrite !andb_false_r.
Qed.

Lemma X10_unset_key_witness :
  (chr "$" ∉ lit "Hello, ") ∧
  ([obj [prop "USER" "you"]] : store) !! 0 = Some (obj [prop "USER" "you"]) ∧
  key (getTemplateKey (lit "name! or $USER")) ≠ [] ∧
  includes (lit ":-") (key (getTemplateKey (lit "name! or $USER"))) = false ∧
  includes (lit ":=") (key (getTemplateKey (lit "name! or $USER"))) = false ∧
  has (obj [prop "USER" "you"]) (key (getTemplateKey (lit "name! or $USER"))) = false ∧
  Index.explode (lit "Hello, $name! or $USER") 0 (OPTS true false) [obj [prop "USER" "you"]]
  = Some (lit "Hello, $name! or you", [obj [prop "USER" "you"]; obj [prop "USER" "you"]]).
Proof.
  assert (chr "$" ∉ lit "Hello, ") as Hpre by compute_done.
  assert (key (getTemplateKey (lit "name! or $USER")) ≠ []) as Hkey by (by vm_compute).
  assert (has (obj [prop "USER" "you"]) (key (getTemplateKey (lit "name! or $USER"))) = false)
    as Habsent by (by vm_compute).
  split; [exact Hpre|]. split; [reflexivity|]. split; [exact Hkey|].
  split; [reflexivity|]. split; [reflexivity|]. split; [exact Habsent|].
  change (lit "Hello, $name! or $USER")
    with (lit "Hello, " ++ chr "$" :: lit "name! or $USER").
  rewrite (X10_unset_key (lit "Hello, ") (lit "name! or $USER") 0 (OPTS true false)
             [obj [prop "USER" "you"]] (obj [prop "USER" "you"])
             Hpre eq_refl Hkey eq_refl eq_refl Habsent).
  reflexivity.
Defined.

(** ** The two files side by side *)

(** On a key without colon, a mapping without undefined values and with
    [ignoreUnsetVars] off, [index.ts] does what the older file does. *)
Lemma resolve_plain (options : Index.Options) (om : jsobject) (k literal : jsstring) :
  chr ":" ∉ k → (∀ k', om !! k' ≠ Some None) →
  truthy_flag (Index.ignoreUnsetVars options) = false →
  resolve options om k literal = (default [] (get om k), om).
Proof.
  intros Hk Hdefined Hflag. unfold resolve.
  rewrite (split_plain k (includes_no_colon _ k Hk) (includes_no_colon _ k Hk)), Hflag.
  cbn [lookup list_lookup to_key default id truthy opt_length fmap option_fmap
       option_map truthy_num andb].
  unfold has, get. specialize (Hdefined k).
  destruct (om !! k) as [[v|]|]; [| |destruct (Object_prototype !! k)];
    cbn [negb andb default id to_string]; rewrite ?andb_false_r; done.
Qed.

Lemma Index_explode_agrees_with_simple (str : jsstring) (mapping : ref)
    (options : Index.Options) (h : store) (src : jsobject) :
  chr ":" ∉ str → h !! mapping = Some src →
  (∀ k, src !! k ≠ Some None) →
  truthy_flag (Index.ignoreUnsetVars options) = false →
  fst <$> Index.explode str mapping options h = Simple.explode str mapping h.
Proof.
  intros Hstr Hsrc Hdefined Hflag.
  unfold Index.explode, Simple.explode. rewrite Hsrc. cbn [mbind option_bind].
  set (R := λ s1 s2 : State, heap s1 = h ++ [src] ∧ heap s2 = h ∧
                             buffer s1 = buffer s2 ∧ i s1 = i s2 ∧ j s1 = j s2).
  assert (option_Forall2 R
            (for_loop (length str) (Index.body str options (length h)) (S (length str))
               {| heap := h ++ [src]; buffer := []; i := 0; j := 0 |})
            (for_loop (length str) (Simple.body str mapping) (S (length str))
               {| heap := h; buffer := []; i := 0; j := 0 |})) as Hrel.
  { apply for_loop_sim; [| |done].
    - by intros s1 s2 (_ & _ & _ & _ & ->).
    - intros s1 s2 (Hh1 & Hh2 & Hb & Hi & Hj).
      rewrite (Index_body_eq _ _ _ s1 src) by (rewrite Hh1; apply lookup_snoc).
      rewrite (Simple_body_eq _ _ _ src) by (by rewrite Hh2).
      rewrite Hj, Hi, Hb, Hh1. constructor. unfold R, next.
      destruct (char_is (str !! j s2) "$");
        [|cbn [heap buffer i j]; by rewrite Hh1, Hh2, Hb, Hi, Hj].
      cbv zeta. set (tk := getTemplateKey (drop (j s2 + 1) str)).
      cbn [heap buffer i j]. rewrite Hh2.
      destruct (is_empty (key tk)) eqn:Hempty; cbn [fst snd].
      + by rewrite insert_snoc.
      + rewrite resolve_plain, insert_snoc; try done.
        intros Hin. apply Hstr.
        apply getTemplateKey_key_elem in Hin.
        apply list_elem_of_lookup in Hin as [n Hn].
        rewrite lookup_drop in Hn. by eapply list_elem_of_lookup_2. }
  destruct Hrel as [r1 r2 (_ & _ & Hb & Hi & _)|]; cbn; [|done].
  by rewrite Hb, Hi.
Qed.

(** X11. [index.ts] is compatible with the older file: on a template
    without colon and a mapping that stores no undefined value, with
    [ignoreUnsetVars] unset or false, [explode] of [index.ts] returns the
    string that [explode] of the file without options returns, and so do the
    two [explodeEnv] on such an environment. *)
Theorem X11_agrees_with_simple (str : jsstring) (mapping : ref)
    (options : Index.Options) (h : store) (src : jsobject) :
  chr ":" ∉ str → h !! mapping = Some src →
  (∀ k, src !! k ≠ Some None) →
  truthy_flag (Index.ignoreUnsetVars options) = false →
  fst <$> Index.explode str mapping options h = Simple.explode str mapping h ∧
  fst <$> Index.explodeEnv mapping str options h = Simple.explodeEnv mapping str h.
Proof.
  intros Hstr Hsrc Hdefined Hflag. unfold Index.explodeEnv, Simple.explodeEnv.
  split; by eapply Index_explode_agrees_with_simple.
Qed.

Lemma X11_agrees_with_simple_witness :
  (chr ":" ∉ lit "Hi ${name}, $x$1 ${") ∧
  ([obj [prop "name" "Ann"]] : store) !! 0 = Some (obj [prop "name" "Ann"]) ∧
  (∀ k, obj [prop "name" "Ann"] !! k ≠ Some None) ∧
  truthy_flag (Index.ignoreUnsetVars Index.DEFAULT_OPTIONS) = false ∧
  fst <$> Index.explode (lit "Hi ${name}, $x$1 ${") 0 Index.DEFAULT_OPTIONS
            [obj [prop "name" "Ann"]]
  = Simple.explode (lit "Hi ${name}, $x$1 ${") 0 [obj [prop "name" "Ann"]] ∧
  fst <$> Index.explodeEnv 0 (lit "Hi ${name}, $x$1 ${") Index.DEFAULT_OPTIONS
            [obj [prop "name" "Ann"]]
  = Simple.explodeEnv 0 (lit "Hi ${name}, $x$1 ${") [obj [prop "name" "Ann"]].
Proof.
  assert (chr ":" ∉ lit "Hi ${name}, $x$1 ${") as Hstr by compute_done.
  assert (∀ k, obj [prop "name" "Ann"] !! k ≠ Some None) as Hdefined.
  { intros k. unfold obj, prop. cbn [list_to_map foldr uncurry].
    destruct (decide (k = lit "name")) as [->|Hne].
    - by rewrite lookup_insert_eq.
    - by rewrite lookup_insert_ne, lookup_empty. }
  split; [exact Hstr|]. split; [reflexivity|]. split; [exact Hdefined|].
  split; [reflexivity|].
  exact (X11_agrees_with_simple (lit "Hi ${name}, $x$1 ${") 0 Index.DEFAULT_OPTIONS
           [obj [prop "name" "Ann"]] (obj [prop "name" "Ann"]) Hstr eq_refl Hdefined eq_refl).
Defined.

(** ** [explodeEnv] and the copy *)

(** X12. Calls of [explodeEnv] do not influence each other: a call
    leaves [process.env] as it was, even when its template assigns defaults
    with [:=], so that any later call, on any template and options, returns in
    the store the first call left what it returns in the store before it. *)
Theorem X12_explodeEnv_calls_independent (process_env : ref)
    (str1 str2 : jsstring) (options1 options2 : Index.Options) (h : store) :
  is_Some (h !! process_env) →
  ∃ out1 h1,
    Index.explodeEnv process_env str1 options1 h = Some (out1, h1) ∧
    h1 !! process_env = h !! process_env ∧
    fst <$> Index.explodeEnv process_env str2 options2 h1
    = fst <$> Index.explodeEnv process_env str2 options2 h.
Proof.
  intros [env Henv]. unfold Index.explodeEnv.
  destruct (Index_explode_total str1 process_env options1 h env Henv)
    as (out1 & om1 & Hout1).
  exists out1, (h ++ [om1]). split; [done|].
  assert ((h ++ [om1]) !! process_env = Some env) as Henv1
    by (by apply lookup_app_l_Some).
  split; [by rewrite Henv1|].
  destruct (Index_explode_content str2 process_env process_env options2
              (h ++ [om1]) h env Henv1 Henv) as (out & om & -> & ->).
  done.
Qed.

Lemma X12_explodeEnv_calls_independent_witness :
  is_Some (([obj [prop "HOME" "/root"]] : store) !! 0) ∧
  ∃ out1 h1,
    Index.explodeEnv 0 (lit "${USER:=nobody}") Index.DEFAULT_OPTIONS
      [obj [prop "HOME" "/root"]] = Some (out1, h1) ∧
    h1 !! 0 = [obj [prop "HOME" "/root"]] !! 0 ∧
    fst <$> Index.explodeEnv 0 (lit "$USER at $HOME") (OPTS true false) h1
    = fst <$> Index.explodeEnv 0 (lit "$USER at $HOME") (OPTS true false)
                [obj [prop "HOME" "/root"]].
Proof.
  split; [by eexists|].
  apply (X12_explodeEnv_calls_independent 0 (lit "${USER:=nobody}") (lit "$USER at $HOME")
           Index.DEFAULT_OPTIONS (OPTS true false) [obj [prop "HOME" "/root"]]).
  by eexists.
Defined.

(** What a placeholder leaves in the copy: the copy itself, or the copy
    with a key it did not hold set to a non-empty default, which takes
    [ignoreDefaultExpansion] to be off. *)
Lemma resolve_copy (options : Index.Options) (om : jsobject) (k literal : jsstring) :
  (resolve options om k literal).2 = om ∨
  ∃ realKey d,
    om !! realKey = None ∧ d ≠ [] ∧
    truthy_flag (Index.ignoreDefaultExpansion options) = false ∧
    (resolve options om k literal).2 = <[realKey := Some d]> om.
Proof.
  unfold resolve. cbn [snd].
  destruct (negb (truthy_flag (Index.ignoreDefaultExpansion options))) eqn:Hflag;
    cbn [andb]; [|by left].
  unfold has. destruct (om !! to_key (split k !! 0)) eqn:Habsent; cbn [negb andb];
    [by left|].
  destruct (Object_prototype !! to_key (split k !! 0)); cbn [negb andb]; [by left|].
  destruct (split k !! 1) as [[|c d]|]; cbn [opt_length fmap option_fmap option_map
    length truthy_num andb]; try (by left).
  destruct (includes (lit ":=") k); [|by left].
  right. exists (to_key (split k !! 0)), (c :: d).
  repeat split; try done. by apply negb_true_iff.
Qed.

(** X13. The copy only ever grows by defaults: when the call returns,
    the copy it leaves holds every entry of the mapping unchanged, every other
    entry of the copy is a non-empty string, and with
    [ignoreDefaultExpansion] set the copy is the mapping. *)
Theorem X13_copy_extends_mapping (str : jsstring) (mapping : ref)
    (options : Index.Options) (h : store) (src : jsobject) :
  h !! mapping = Some src →
  ∃ out om,
    Index.explode str mapping options h = Some (out, h ++ [om]) ∧
    src ⊆ om ∧
    (∀ k v, om !! k = Some v → src !! k = Some v ∨ ∃ d, v = Some d ∧ d ≠ []) ∧
    (truthy_flag (Index.ignoreDefaultExpansion options) = true → om = src).
Proof.
  intros Hsrc. unfold Index.explode. rewrite Hsrc. cbn [mbind option_bind].
  set (Inv := λ om : jsobject,
         src ⊆ om ∧
         (∀ k v, om !! k = Some v → src !! k = Some v ∨ ∃ d, v = Some d ∧ d ≠ []) ∧
         (truthy_flag (Index.ignoreDefaultExpansion options) = true → om = src)).
  destruct (for_loop_total (length str) (Index.body str options (length h))
              (λ s, ∃ om, heap s = h ++ [om] ∧ Inv om))
    with (fuel := S (length str))
         (st := {| heap := h ++ [src]; buffer := []; i := 0; j := 0 |})
    as (r & -> & om & Hom & HInv).
  - intros s (om & Hh & Hsub & Hnew & Hoff) _.
    rewrite (Index_body_eq _ _ _ _ om) by (rewrite Hh; apply lookup_snoc).
    eexists. split; [done|].
    destruct (char_is (str !! j s) "$"); [|split; [by exists om|done]].
    cbv zeta. cbn [next heap j]. rewrite Hh, insert_snoc. split; [|lia].
    eexists. split; [done|].
    destruct (is_empty _); [done|].
    destruct (resolve_copy options om
                (key (getTemplateKey (drop (j s + 1) str)))
                (slice (j s)
                   (j s + length_ (getTemplateKey (drop (j s + 1) str)) + 1) str))
      as [-> | (realKey & d & Habsent & Hd & Hflag & ->)]; [done|].
    repeat split.
    + apply insert_subseteq_r; [|done]. by eapply lookup_weaken_None.
    + intros k v. destruct (decide (k = realKey)) as [->|Hne].
      * rewrite lookup_insert_eq. intros [= <-]. right. by exists d.
      * rewrite lookup_insert_ne by done. apply Hnew.
    + intros Hon. congruence.
  - exists src. split; [done|]. unfold Inv. split; [done|]. split; [by left|done].
  - cbn. lia.
  - cbn [mbind option_bind]. rewrite Hom. by exists (buffer r ++ drop (i r) str), om.
Qed.

Lemma X13_copy_extends_mapping_witness :
  ([obj [prop "a" "1"]] : store) !! 0 = Some (obj [prop "a" "1"]) ∧
  ∃ out om,
    Index.explode (lit "${a:=2}${b:=3}") 0 Index.DEFAULT_OPTIONS [obj [prop "a" "1"]]
    = Some (out, [obj [prop "a" "1"]] ++ [om]) ∧
    obj [prop "a" "1"] ⊆ om ∧
    (∀ k v, om !! k = Some v →
            obj [prop "a" "1"] !! k = Some v ∨ ∃ d, v = Some d ∧ d ≠ []) ∧
    (truthy_flag (Index.ignoreDefaultExpansion Index.DEFAULT_OPTIONS) = true →
     om = obj [prop "a" "1"]).
Proof.
  split; [reflexivity|].
  exact (X13_copy_extends_mapping (lit "${a:=2}${b:=3}") 0 Index.DEFAULT_OPTIONS
           [obj [prop "a" "1"]] (obj [prop "a" "1"]) eq_refl).
Defined.

(** ** A [$] that starts no placeholder *)

Lemma getTemplateKey_not_word (c : N) (rest : jsstring) :
  c ≠ chr "{" → isAlphaNumeric c = false →
  getTemplateKey (c :: rest) = {| key := []; length_ := 0 |}.
Proof.
  intros Hbrace Hc. unfold getTemplateKey. cbn [lookup list_lookup char_is].
  destruct (N.eqb_spec c (chr "{")) as [|_]; [done|].
  destruct (isShellSpecialVar (Some c)); [done|].
  cbn [word_end]. by rewrite Hc.
Qed.

(** X14. A [$] is plain text unless a letter, an underscore or [{]
    follows: before a special character (a digit, [$], [*], [#], [@], [!],
    [?], [-]) or before any character that is no word character and no [{],
    both files append the [$] alone and go on scanning at the character
    after it, which is read again as the start of the rest. *)
Theorem X14_dollar_is_text (pre rest : jsstring) (c : N) (mapping : ref)
    (options : Index.Options) (h : store) (src : jsobject) :
  chr "$" ∉ pre → h !! mapping = Some src →
  c ≠ chr "{" → isShellSpecialVar (Some c) = true ∨ isAlphaNumeric c = false →
  Index.explode (pre ++ chr "$" :: c :: rest) mapping options h =
  ('(out, h') ← Index.explode (c :: rest) mapping options h;
   Some (pre ++ [chr "$"] ++ out, h')) ∧
  Simple.explode (pre ++ chr "$" :: c :: rest) mapping h =
  (out ← Simple.explode (c :: rest) mapping h; Some (pre ++ [chr "$"] ++ out)).
Proof.
  intros Hpre Hsrc Hbrace Hc.
  assert (getTemplateKey (c :: rest) = {| key := []; length_ := 0 |}) as Htk.
  { destruct Hc as [Hc|Hc].
    - by apply getTemplateKey_special.
    - by apply getTemplateKey_not_word. }
  split.
  - rewrite (Index_explode_failed_key pre (c :: rest) mapping options h src Hpre Hsrc)
      by (by rewrite Htk).
    by rewrite Htk.
  - rewrite (Simple_explode_head pre (c :: rest) mapping h src Hpre Hsrc).
    cbv zeta. by rewrite Htk.
Qed.

Lemma X14_dollar_is_text_witness :
  (chr "$" ∉ lit "cost: ") ∧
  ([obj [prop "abc" "x"]] : store) !! 0 = Some (obj [prop "abc" "x"]) ∧
  chr "1" ≠ chr "{" ∧
  (isShellSpecialVar (Some (chr "1")) = true ∨ isAlphaNumeric (chr "1") = false) ∧
  Index.explode (lit "cost: $1abc") 0 Index.DEFAULT_OPTIONS [obj [prop "abc" "x"]]
  = Some (lit "cost: $1abc", [obj [prop "abc" "x"]; obj [prop "abc" "x"]]) ∧
  Simple.explode (lit "cost: $1abc") 0 [obj [prop "abc" "x"]] = Some (lit "cost: $1abc").
Proof.
  assert (chr "$" ∉ lit "cost: ") as Hpre by compute_done.
  assert (chr "1" ≠ chr "{") as Hbrace by done.
  split; [exact Hpre|]. split; [reflexivity|]. split; [exact Hbrace|].
  split; [left; reflexivity|].
  pose proof (X14_dollar_is_text (lit "cost: ") (lit "abc") (chr "1") 0
                Index.DEFAULT_OPTIONS [obj [prop "abc" "x"]] (obj [prop "abc" "x"])
                Hpre eq_refl Hbrace (or_introl eq_refl)) as [HI HS].
  split.
  - change (lit "cost: $1abc") with (lit "cost: " ++ chr "$" :: chr "1" :: lit "abc").
    rewrite HI. reflexivity.
  - change (lit "cost: $1abc") with (lit "cost: " ++ chr "$" :: chr "1" :: lit "abc").
    rewrite HS. reflexivity.
Defined.
